(** * zfs_exporter: the pool collector and its line handler

    A shallow embedding of [zfs/pool.go] and [collector/pool.go].

    - Go strings are [string]; a Go [map[string]string] is a
      [gmap string string]; slices are lists, indexed with [!!].
    - A method with a pointer receiver returns the updated struct.
    - A Go [error] result is an [option error] ([None] is [nil]).
    - An index expression out of range panics in Go: functions that
      index a slice return an [option], and [None] is that panic. *)

From stdpp Require Import base strings list gmap fin_maps.

Open Scope string_scope.
Open Scope nat_scope.
Open Scope list_scope.

(** Errors.  [ErrInvalidOutput] is the package-level sentinel of package
    [zfs]; [Errorf] is a value built by [fmt.Errorf] (its text after the
    verbs are filled in); [ErrExternal] is an error handed over by a
    collaborator (process start or wait, property lookup, transform). *)
Inductive error : Type :=
| ErrInvalidOutput
| Errorf (msg : string)
| ErrExternal (msg : string).

Global Instance error_eq_dec : EqDecision error.
Proof. solve_decision. Defined.

(** ** Package zfs *)
Module zfs.

(** [type PoolKind string] and [type PoolStatus string]. *)
Abbreviation PoolKind := string.
Abbreviation PoolStatus := string.

Definition PoolProps : PoolKind := "properties".
Definition PoolIostat : PoolKind := "iostats".

Definition PoolOnline : PoolStatus := "ONLINE".
Definition PoolDegraded : PoolStatus := "DEGRADED".
Definition PoolFaulted : PoolStatus := "FAULTED".
Definition PoolOffline : PoolStatus := "OFFLINE".
Definition PoolUnavail : PoolStatus := "UNAVAIL".
Definition PoolRemoved : PoolStatus := "REMOVED".
Definition PoolSuspended : PoolStatus := "SUSPENDED".

Record poolImpl : Type := mkPoolImpl {
  name : string;
  pkind : PoolKind
}.

Definition newPoolImpl (n : string) (k : PoolKind) : poolImpl :=
  {| name := n; pkind := k |}.

Record poolPropertiesImpl : Type := mkProps {
  kind : PoolKind;
  properties : gmap string string
}.

Definition newPoolPropertiesImpl (k : PoolKind) : poolPropertiesImpl :=
  {| kind := k; properties := ∅ |}.

(** [p.properties[k] = v] *)
Definition assign (p : poolPropertiesImpl) (k v : string) : poolPropertiesImpl :=
  {| kind := kind p; properties := <[k := v]> (properties p) |}.

(** [processLine]: the [switch] on [p.kind] tries its cases in order;
    [a || b] does not evaluate [b] when [a] holds, so [line[0]] is only
    read when the length test has passed. *)
Definition processLine (p : poolPropertiesImpl) (pool : string) (line : list string)
  : option (poolPropertiesImpl * option error) :=
  if decide (kind p = PoolProps) then
    if decide (length line ≠ 3) then Some (p, Some ErrInvalidOutput)
    else
      l0 ← line !! 0;
      if decide (l0 ≠ pool) then Some (p, Some ErrInvalidOutput)
      else
        l1 ← line !! 1;
        l2 ← line !! 2;
        Some (assign p l1 l2, None)
  else if decide (kind p = PoolIostat) then
    if decide (length line ≠ 7) then Some (p, Some ErrInvalidOutput)
    else
      l0 ← line !! 0;
      if decide (l0 ≠ pool) then Some (p, Some ErrInvalidOutput)
      else
        l3 ← line !! 3;
        let p := assign p "opread" l3 in
        l4 ← line !! 4;
        let p := assign p "opwrite" l4 in
        l5 ← line !! 5;
        let p := assign p "bwwrite" l5 in
        l6 ← line !! 6;
        let p := assign p "bwwrite" l6 in
        Some (p, None)
  else
    Some (p, Some (Errorf ("unknown pool type: " +:+ kind p +:+ " xxxxxxx"))).

Definition getFieldsPerRecord (p : poolPropertiesImpl) : Z :=
  if decide (kind p = PoolProps) then 3%Z
  else if decide (kind p = PoolIostat) then 7%Z
  else 3%Z.

(** Modelled from the spec: the loop that hands the lines of a command to
    the handler is part of [execute], which is not among the sources.
    Section 4.2: the output is streamed one line at a time and each line
    is handed to the Line Handler; sections 4.1 and 7: a failure of the
    handler is fatal for the collection of the current resource, so the
    loop ends at the first error.  On lines that the handler accepts this
    is [processLine] applied to one line after the other. *)
Fixpoint processLines (p : poolPropertiesImpl) (pool : string) (lines : list (list string))
  : option (poolPropertiesImpl * option error) :=
  match lines with
  | [] => Some (p, None)
  | line :: rest =>
      '(p', err) ← processLine p pool line;
      match err with
      | Some e => Some (p', Some e)
      | None => processLines p' pool rest
      end
  end.

(** A line as the properties command prints it for [pool]. *)
Definition wellFormed (pool : string) (line : list string) : Prop :=
  length line = 3 ∧ line !! 0 = Some pool.

(** What one run of an external command shows to the program: whether
    the output pipe could be obtained, whether the process started, the
    lines it printed (already split into fields), and its exit. *)
Record cmdRun : Type := mkRun {
  pipeErr : option error;
  startErr : option error;
  stdout : list (list string);
  waitErr : option error
}.

Section Executor.

(** The operating system: the run obtained for a pool and an argument
    vector (program name first). *)
Variable sys : string → list string → cmdRun.

(** Modelled from the spec: [execute] is called by [Properties] but is
    not among the sources.  Section 4.2: the command is run, its
    standard output is streamed one line at a time, each line split and
    handed to the Line Handler; failing to obtain the output stream,
    failing to start the process and a non-zero exit status are each
    reported as failures; a handler failure aborts the pass for the
    resource. *)
Definition execute (pool : string) (h : poolPropertiesImpl) (cmd : string) (args : list string)
  : option (poolPropertiesImpl * option error) :=
  let run := sys pool (cmd :: args) in
  match pipeErr run with
  | Some e => Some (h, Some e)
  | None =>
      match startErr run with
      | Some e => Some (h, Some e)
      | None =>
          '(h', err) ← processLines h pool (stdout run);
          match err with
          | Some e => Some (h', Some e)
          | None => Some (h', waitErr run)
          end
      end
  end.

(** [poolImpl.Properties] *)
Definition Properties (p : poolImpl) (props : list string)
  : option (poolPropertiesImpl * option error) :=
  let handler := newPoolPropertiesImpl (pkind p) in
  if decide (pkind p = PoolProps) then
    '(h, err) ← execute (name p) handler "zpool"
                  ["get"; "-Hpo"; "name,property,value"; String.concat "," props];
    match err with
    | Some e => Some (h, Some e)
    | None => Some (h, None)
    end
  else if decide (pkind p = PoolIostat) then
    '(h, err) ← execute (name p) handler "zpool" ["iostat"; "-Hyp"];
    match err with
    | Some e => Some (h, Some e)
    | None => Some (h, None)
    end
  else
    Some (handler, Some (Errorf ("unknown pool type: " +:+ pkind p +:+ " hhhhhhhh"))).

End Executor.

(** The key and the value of a properties line. *)
Definition lineEntry (line : list string) : option (string * string) :=
  k ← line !! 1; v ← line !! 2; Some (k, v).

End zfs.

(** ** Package collector *)
Module collector.

Definition defaultPoolProps : string :=
  "allocated,dedupratio,fragmentation,free,freeing,health,leaked,readonly,size".
Definition defaultPoolIostats : string := "opread,opwrite,bwread,bwwrite".

Definition poolLabels : list string := ["pool"].

(** The keys of the [store] of [poolProperties], in the order of the
    composite literal. *)
Definition poolPropertyKeys : list string :=
  ["allocated"; "dedupratio"; "capacity"; "expandsize"; "fragmentation";
   "free"; "freeing"; "health"; "leaked"; "readonly"; "size";
   "opread"; "opwrite"; "bwread"; "bwwrite"].

(** Modelled from the spec: the constants [poolOnline] .. [poolSuspended]
    are used by the help text of the [health] property but declared in a
    file that is not among the sources.  Sections 4.4 and 6: the status
    tokens online, degraded, faulted, offline, unavailable, removed,
    suspended are mapped, in this fixed order, to the codes 0 to 6. *)
Definition poolOnline : Z := 0.
Definition poolDegraded : Z := 1.
Definition poolFaulted : Z := 2.
Definition poolOffline : Z := 3.
Definition poolUnavail : Z := 4.
Definition poolRemoved : Z := 5.
Definition poolSuspended : Z := 6.

(** The code/status pairs, in the order in which the help text of the
    [health] property lists them. *)
Definition healthCodes : list (Z * string) :=
  [(poolOnline, zfs.PoolOnline); (poolDegraded, zfs.PoolDegraded);
   (poolFaulted, zfs.PoolFaulted); (poolOffline, zfs.PoolOffline);
   (poolUnavail, zfs.PoolUnavail); (poolRemoved, zfs.PoolRemoved);
   (poolSuspended, zfs.PoolSuspended)].

(** Modelled from the spec: [transformHealthCode] is registered for the
    [health] property but defined in a file that is not among the
    sources.  Section 4.4: a known status token is mapped to its code; an
    unrecognized token is a transform error. *)
Definition transformHealthCode (status : string) : Z + error :=
  if decide (status = zfs.PoolOnline) then inl poolOnline
  else if decide (status = zfs.PoolDegraded) then inl poolDegraded
  else if decide (status = zfs.PoolFaulted) then inl poolFaulted
  else if decide (status = zfs.PoolOffline) then inl poolOffline
  else if decide (status = zfs.PoolUnavail) then inl poolUnavail
  else if decide (status = zfs.PoolRemoved) then inl poolRemoved
  else if decide (status = zfs.PoolSuspended) then inl poolSuspended
  else inr (Errorf ("unknown health status: " +:+ status)).

(** [c.client.Pool(pool, c.kind).Properties(c.props...)] followed by
    [.Properties()]: the client is an interface, so the collector only
    sees the accumulated map and the error. *)
Definition Client : Type :=
  string → string → list string → gmap string string * option error.

Record poolCollector : Type := mkCollector {
  kind : zfs.PoolKind;
  client : Client;
  props : list string
}.

Definition newPoolCollector (k : zfs.PoolKind) (c : Client) (ps : list string)
  : option poolCollector * option error :=
  if decide (k = zfs.PoolProps ∨ k = zfs.PoolIostat)
  then (Some {| kind := k; client := c; props := ps |}, None)
  else (None, Some (Errorf ("unknown pool type: " +:+ k))).

Definition newPoolPropertiesCollector (c : Client) (ps : list string) :=
  newPoolCollector zfs.PoolProps c ps.

Definition newPoolIostatCollector (c : Client) (ps : list string) :=
  newPoolCollector zfs.PoolIostat c ps.

(** The client built on package [zfs]: [Pool] is [newPoolImpl], and the
    map is read off the handler [Properties] returns.  [Properties] never
    panics (lemma [Properties_no_panic]), so the last branch is dead. *)
Definition zfsClient (sys : string → list string → zfs.cmdRun) : Client :=
  fun pool k ps =>
    match zfs.Properties sys (zfs.newPoolImpl pool k) ps with
    | Some (h, err) => (zfs.properties h, err)
    | None => (∅, Some (Errorf "panic"))
    end.

Section PoolCollector.

(** [property] and [metric] are declared in files that are not among
    the sources, as are the two operations on them that this file
    calls; they are parameters here. *)
Context {property metric : Type}.

(** [poolProperties.find(k)]: a descriptor and an error. *)
Variable find : string → property * option error.

(** [prop.push(ch, v, labelValues...)]: the metrics it sends on [ch]
    and the error it returns. *)
Variable push : property → string → list string → list metric * option error.

(** The order in which a [for ... range] visits the entries of a map.
    Go leaves it unspecified, so it is a parameter, and the theorems hold
    for every choice of it. *)
Variable range : gmap string string → list (string * string).

(** What a call does to its collaborators: a metric sent on [ch], or a
    warning for a property handed to the logger. *)
Inductive action : Type :=
| Emit (m : metric)
| Warn (k : string) (e : error).

(** The loop of [updatePoolMetrics] over the entries still to visit. *)
Fixpoint pushProperties (pool : string) (kvs : list (string * string))
  : list action * option error :=
  match kvs with
  | [] => ([], None)
  | (k, v) :: rest =>
      let '(prop, err) := find k in
      let warned := match err with Some e => [Warn k e] | None => [] end in
      let '(ms, err) := push prop v [pool] in
      match err with
      | Some e => (warned ++ (Emit <$> ms), Some e)
      | None =>
          let '(acts, r) := pushProperties pool rest in
          (warned ++ (Emit <$> ms) ++ acts, r)
      end
  end.

Definition updatePoolMetrics (c : poolCollector) (pool : string)
  : list action * option error :=
  let '(m, err) := client c pool (kind c) (props c) in
  match err with
  | Some e => ([], Some e)
  | None => pushProperties pool (range m)
  end.

(** The reading under which a pair whose key is not registered is
    skipped, for a map with a single entry: the warning is all that
    happens. *)
Definition unresolvedSkipped : Prop :=
  ∀ c pool m k v prop e,
    client c pool (kind c) (props c) = (m, None) →
    range m = [(k, v)] →
    find k = (prop, Some e) →
    updatePoolMetrics c pool = ([Warn k e], None).

End PoolCollector.

(** *** [update]: goroutines, the wait group and the error channel

    [update] starts one goroutine per pool and waits for all of them, so
    its behaviour is a set of interleavings.  It is modelled as a
    transition system: a state holds the program counter of [update]
    itself, one program counter per goroutine started so far, and the
    shared objects.  [ch] is the sequence of metrics sent so far on the
    output channel (its receiver is outside this package and is assumed
    to keep receiving); [errChan] is a buffered channel, so a send on it
    is enabled only while it holds fewer values than its capacity. *)
Section Update.

Context {metric : Type}.

(** What the call [c.updatePoolMetrics(ch, pool)] of the [i]-th
    goroutine does: its sends and warnings in order, then its
    result. *)
Variable body : nat → string → list (@action metric) * option error.

Inductive goroutine : Type :=
| GCall (todo : list (@action metric)) (result : option error)
    (* inside [c.updatePoolMetrics] *)
| GReport (e : error)      (* at [errChan <- err] *)
| GDone                    (* at [wg.Done()] *)
| GExit.                   (* returned *)

Inductive updatePc : Type :=
| PSpawn (rest : list string)   (* in the [for ... range pools] loop *)
| PWait                         (* at [wg.Wait()] *)
| PReturn (r : option error).   (* returned [r] *)

Record ustate : Type := mkState {
  pc : updatePc;
  gs : list goroutine;
  ch : list metric;
  logged : list (string * error);
  errChan : list error;
  errCap : nat;
  wg : Z
}.

(** [errChan := make(chan error, len(pools))] and an empty wait
    group; [ch0] is what the output channel has carried before. *)
Definition initial (ch0 : list metric) (pools : list string) : ustate :=
  mkState (PSpawn pools) [] ch0 [] [] (length pools) 0.

(** One step of [update] itself: an iteration of the loop
    ([wg.Add(1)] and the [go] statement), leaving the loop, or
    [wg.Wait()] returning followed by the [select], whose [default]
    case is taken exactly when [errChan] is empty. *)
Definition stepUpdate (s : ustate) : option ustate :=
  match pc s with
  | PSpawn (pool :: rest) =>
      let '(todo, r) := body (length (gs s)) pool in
      Some (mkState (PSpawn rest) (gs s ++ [GCall todo r]) (ch s) (logged s)
              (errChan s) (errCap s) (wg s + 1))
  | PSpawn [] =>
      Some (mkState PWait (gs s) (ch s) (logged s) (errChan s) (errCap s) (wg s))
  | PWait =>
      if decide (wg s = 0%Z) then
        match errChan s with
        | e :: es =>
            Some (mkState (PReturn (Some e)) (gs s) (ch s) (logged s) es (errCap s) (wg s))
        | [] =>
            Some (mkState (PReturn None) (gs s) (ch s) (logged s) [] (errCap s) (wg s))
        end
      else None
  | PReturn _ => None
  end.

Definition setGoroutine (s : ustate) (i : nat) (g : goroutine) : list goroutine :=
  <[i := g]> (gs s).

(** One step of goroutine [i]; [None] when it does not exist, has
    returned, or is blocked on a full [errChan]. *)
Definition stepGoroutine (i : nat) (s : ustate) : option ustate :=
  g ← gs s !! i;
  match g with
  | GCall (Emit m :: todo) r =>
      Some (mkState (pc s) (setGoroutine s i (GCall todo r)) (ch s ++ [m]) (logged s)
              (errChan s) (errCap s) (wg s))
  | GCall (Warn k e :: todo) r =>
      Some (mkState (pc s) (setGoroutine s i (GCall todo r)) (ch s) (logged s ++ [(k, e)])
              (errChan s) (errCap s) (wg s))
  | GCall [] (Some e) =>
      Some (mkState (pc s) (setGoroutine s i (GReport e)) (ch s) (logged s)
              (errChan s) (errCap s) (wg s))
  | GCall [] None =>
      Some (mkState (pc s) (setGoroutine s i GDone) (ch s) (logged s)
              (errChan s) (errCap s) (wg s))
  | GReport e =>
      if decide (length (errChan s) < errCap s) then
        Some (mkState (pc s) (setGoroutine s i GDone) (ch s) (logged s)
                (errChan s ++ [e]) (errCap s) (wg s))
      else None
  | GDone =>
      Some (mkState (pc s) (setGoroutine s i GExit) (ch s) (logged s)
              (errChan s) (errCap s) (wg s - 1))
  | GExit => None
  end.

(** The scheduler picks [update] itself or one of the goroutines. *)
Inductive choice : Type :=
| Main
| Go (i : nat).

Definition stepChoice (c : choice) (s : ustate) : option ustate :=
  match c with
  | Main => stepUpdate s
  | Go i => stepGoroutine i s
  end.

Definition step (s s' : ustate) : Prop :=
  ∃ c, stepChoice c s = Some s'.

(** Running a schedule; [None] when it picks a step that is not
    enabled. *)
Fixpoint exec (sched : list choice) (s : ustate) : option ustate :=
  match sched with
  | [] => Some s
  | c :: rest => s' ← stepChoice c s; exec rest s'
  end.

Definition reachable (ch0 : list metric) (pools : list string) (s : ustate) : Prop :=
  rtc step (initial ch0 pools) s.

(** The metrics and the errors of all the calls of a pass. *)
Definition emitted (acts : list (@action metric)) : list metric :=
  omap (fun a => match a with Emit m => Some m | Warn _ _ => None end) acts.

Fixpoint allMetrics (i : nat) (pools : list string) : list metric :=
  match pools with
  | [] => []
  | pool :: rest => emitted (body i pool).1 ++ allMetrics (S i) rest
  end.

Fixpoint allErrors (i : nat) (pools : list string) : list error :=
  match pools with
  | [] => []
  | pool :: rest => option_list (body i pool).2 ++ allErrors (S i) rest
  end.

(** What the goroutines and the loop still owe to the shared objects. *)
Definition pendingErrors (g : goroutine) : list error :=
  match g with
  | GCall _ r => option_list r
  | GReport e => [e]
  | GDone | GExit => []
  end.

Definition pendingMetrics (g : goroutine) : list metric :=
  match g with
  | GCall todo _ => emitted todo
  | GReport _ | GDone | GExit => []
  end.

(** 1 for a goroutine that has not yet called [wg.Done()]. *)
Definition live (g : goroutine) : nat :=
  match g with
  | GExit => 0
  | GCall _ _ | GReport _ | GDone => 1
  end.

Definition unspawned (s : ustate) : list string :=
  match pc s with
  | PSpawn rest => rest
  | PWait | PReturn _ => []
  end.

(** The invariant of a pass over [pools] that found [ch0] on the output
    channel: the capacity of [errChan] is the number of pools; the wait
    group counts the goroutines that have not called [wg.Done()]; the
    output channel has only grown, and what it received together with what
    is still to be sent is what the calls send; the same for the errors,
    until [update] takes one of them (or none) and returns. *)
Record invariant (ch0 : list metric) (pools : list string) (s : ustate) : Prop := mkInv {
  inv_cap : errCap s = length pools;
  inv_wg : wg s = Z.of_nat (sum_list_with live (gs s));
  inv_ch : ∃ sent,
    ch s = ch0 ++ sent ∧
    sent ++ (gs s ≫= pendingMetrics) ++ allMetrics (length (gs s)) (unspawned s)
    ≡ₚ allMetrics 0 pools;
  inv_err :
    match pc s with
    | PReturn r =>
        wg s = 0%Z ∧ ∃ es, es ≡ₚ allErrors 0 pools ∧ r = head es ∧ errChan s = tail es
    | PSpawn _ | PWait =>
        errChan s ++ (gs s ≫= pendingErrors) ++ allErrors (length (gs s)) (unspawned s)
        ≡ₚ allErrors 0 pools
    end
}.

(** The number of steps a state has left, at most. *)
Definition goroutineSteps (g : goroutine) : nat :=
  match g with
  | GCall todo _ => length todo + 3
  | GReport _ => 2
  | GDone => 1
  | GExit => 0
  end.

Fixpoint spawnSteps (i : nat) (pools : list string) : nat :=
  match pools with
  | [] => 0
  | pool :: rest => length (body i pool).1 + 4 + spawnSteps (S i) rest
  end.

Definition stepsLeft (s : ustate) : nat :=
  match pc s with
  | PSpawn rest => 2 + spawnSteps (length (gs s)) rest
  | PWait => 1
  | PReturn _ => 0
  end + sum_list_with goroutineSteps (gs s).

End Update.

(** [poolCollector.update]: the transition system above, with every
    goroutine running [c.updatePoolMetrics(ch, pool)].  The parameter
    [excludes] of [update] is not used by its body.  [update ... s] says
    that a run of [update] over [pools] can be in state [s]. *)
Definition updateBody {property metric : Type}
    (find : string → property * option error)
    (push : property → string → list string → list metric * option error)
    (range : gmap string string → list (string * string))
    (c : poolCollector) : nat → string → list (@action metric) * option error :=
  fun _ pool => updatePoolMetrics find push range c pool.

Definition update {property metric : Type}
    (find : string → property * option error)
    (push : property → string → list string → list metric * option error)
    (range : gmap string string → list (string * string))
    (c : poolCollector) (ch0 : list metric) (pools : list string)
  : @ustate metric → Prop :=
  reachable (updateBody find push range c) ch0 pools.

(** *** The entries of the loop of [updatePoolMetrics], one at a time *)
Section Entries.

Context {property metric : Type}.
Variable find : string → property * option error.
Variable push : property → string → list string → list metric * option error.

(** The push of an entry succeeds. *)
Definition pushOk (pool : string) (kv : string * string) : Prop :=
  (push (find kv.1).1 kv.2 [pool]).2 = None.

(** What the loop does for one entry. *)
Definition entryActions (pool : string) (kv : string * string) : list (@action metric) :=
  match (find kv.1).2 with Some e => [Warn kv.1 e] | None => [] end
  ++ (Emit <$> (push (find kv.1).1 kv.2 [pool]).1).

End Entries.

(** *** [describe] *)
Section Describe.

(** [prometheus.Desc] is declared outside this repository, and the field
    [desc] of a [property] in a file that is not among the sources; they
    are parameters. *)
Context {property descriptor : Type}.
Variable find : string → property * option error.
Variable desc : property → descriptor.

(** What [describe] does: a descriptor sent on [ch], or a warning. *)
Inductive described : Type :=
| SendDesc (d : descriptor)
| WarnDesc (k : string) (e : error).

(** The loop of [describe] over the properties still to visit; the
    [continue] skips the send. *)
Fixpoint describeProps (ks : list string) : list described :=
  match ks with
  | [] => []
  | k :: rest =>
      let '(prop, err) := find k in
      match err with
      | Some e => WarnDesc k e :: describeProps rest
      | None => SendDesc (desc prop) :: describeProps rest
      end
  end.

Definition describe (c : poolCollector) : list described :=
  describeProps (props c).

End Describe.

(** *** More about the runs of [update] *)
Section UpdateRuns.

Context {metric : Type}.
Variable body : nat → string → list (@action metric) * option error.

(** The warnings among the actions of a call. *)
Definition warned (acts : list (@action metric)) : list (string * error) :=
  omap (fun a => match a with Emit _ => None | Warn k e => Some (k, e) end) acts.

(** The goroutines as the loop of [update] starts them, from index [i]. *)
Fixpoint spawnList (i : nat) (pools : list string) : list (@goroutine metric) :=
  match pools with
  | [] => []
  | pool :: rest => GCall (body i pool).1 (body i pool).2 :: spawnList (S i) rest
  end.

Definition pendingWarnings (g : @goroutine metric) : list (string * error) :=
  match g with
  | GCall todo _ => warned todo
  | GReport _ | GDone | GExit => []
  end.

(** A second invariant of a pass, about the order of things: goroutine
    [i] is the one started for [pools !! i]; the loop has started the
    goroutines of a prefix of [pools]; and what a goroutine has sent and
    logged so far, followed by what it still has to send and log, is what
    its call sends and logs, the part done being found in this order on
    the output channel and in the log. *)
Record orderInvariant (ch0 : list metric) (pools : list string) (s : @ustate metric)
  : Prop := mkOrderInv {
  ord_spawned : drop (length (gs s)) pools = unspawned s;
  ord_length : length (gs s) ≤ length pools;
  ord_done : ∃ sent,
    ch s = ch0 ++ sent ∧
    ∀ i g, gs s !! i = Some g →
      ∃ pool sentI loggedI,
        pools !! i = Some pool ∧
        sentI ++ pendingMetrics g = emitted (body i pool).1 ∧
        sentI `sublist_of` sent ∧
        loggedI ++ pendingWarnings g = warned (body i pool).1 ∧
        loggedI `sublist_of` logged s
}.

(** The oldest error in [errChan] is the one [update] will return. *)
Definition willReturn (e : error) (s : @ustate metric) : Prop :=
  match pc s with
  | PReturn r => r = Some e
  | PSpawn _ | PWait => head (errChan s) = Some e
  end.

End UpdateRuns.

End collector.

(** ** Stand-ins for the collaborators

    The registry operations and the operating system are parameters of the
    definitions above, and every theorem about the collector holds for all
    of them.  The stand-ins below only give the examples concrete values
    at which the hypotheses of a theorem can be seen to hold; they are not
    a model of the registry, and nothing is concluded about the code from
    how they behave.  A descriptor is a metric name, a metric is the
    descriptor with the raw value and the label values, and [push] sends
    exactly one metric and never fails. *)
Module sample.

Definition property : Type := string.
Definition metric : Type := string * string * list string.

Definition errUnsupported : error := ErrExternal "unsupported property".

(** The registered keys are those of [poolProperties]. *)
Definition find (k : string) : property * option error :=
  if decide (k ∈ collector.poolPropertyKeys) then (k, None)
  else ("unsupported_" +:+ k, Some errUnsupported).

Definition push (prop : property) (v : string) (labels : list string)
  : list metric * option error :=
  ([(prop, v, labels)], None).

Definition range (m : gmap string string) : list (string * string) :=
  map_to_list m.

Definition exitStatus1 : error := ErrExternal "exit status 1".

(** Three pools: the command for [B] prints its line and then exits
    with a non-zero status; the other two succeed. *)
Definition sys (pool : string) (argv : list string) : zfs.cmdRun :=
  if decide (pool = "B")
  then zfs.mkRun None None [[pool; "size"; "2"]] (Some exitStatus1)
  else zfs.mkRun None None [[pool; "size"; "1"]; [pool; "health"; "ONLINE"]] None.

Definition propsCollector : collector.poolCollector :=
  collector.mkCollector zfs.PoolProps (collector.zfsClient sys) ["size"; "health"].

(** One interleaving of a pass over the pools A, B and C. *)
Definition schedule : list collector.choice :=
  [collector.Main; collector.Go 0; collector.Main; collector.Go 1; collector.Go 0;
   collector.Main; collector.Go 2; collector.Go 1; collector.Main; collector.Go 2;
   collector.Go 0; collector.Go 1; collector.Go 2; collector.Go 0; collector.Go 2;
   collector.Main].

(** A [push] that fails on an empty value, as a transform would. *)
Definition errEmpty : error := ErrExternal "empty value".

Definition pushNonEmpty (prop : property) (v : string) (labels : list string)
  : list metric * option error :=
  if decide (v = "") then ([], Some errEmpty) else ([(prop, v, labels)], None).

(** A client whose pool reports an empty value for [free]. *)
Definition emptyFreeCollector : collector.poolCollector :=
  collector.mkCollector zfs.PoolProps
    (fun _ _ _ => (<[ "size" := "1" ]> (<[ "free" := "" ]> {[ "health" := "ONLINE" ]}), None))
    ["size"; "free"; "health"].

(** A client whose pool has a property the registry does not know. *)
Definition guidCollector : collector.poolCollector :=
  collector.mkCollector zfs.PoolProps
    (fun _ _ _ => ({[ "guid" := "123" ]}, None)) ["guid"].

End sample.

(** * The line handler *)

Section LineHandler.

Import zfs.

Implicit Types (p : poolPropertiesImpl) (pool k v : string) (line : list string).

Lemma processLine_kind p pool line p' r :
  processLine p pool line = Some (p', r) → kind p' = kind p.
Proof.
  unfold processLine. intros H.
  repeat (case_decide || simplify_option_eq); done.
Qed.

(** Every index expression of [processLine] is guarded by the length
    test before it: no line makes it panic. *)
Lemma processLine_no_panic p pool line : is_Some (processLine p pool line).
Proof.
  unfold processLine.
  destruct (decide (kind p = PoolProps)) as [_|_].
  - destruct (decide (length line ≠ 3)) as [|Hn]; [eauto|].
    apply dec_stable in Hn.
    destruct line as [|l0 [|l1 [|l2 [|]]]]; simplify_eq/=.
    destruct (decide (l0 ≠ pool)); eauto.
  - destruct (decide (kind p = PoolIostat)) as [_|_]; [|eauto].
    destruct (decide (length line ≠ 7)) as [|Hn]; [eauto|].
    apply dec_stable in Hn.
    destruct line as [|l0 [|l1 [|l2 [|l3 [|l4 [|l5 [|l6 [|]]]]]]]]; simplify_eq/=.
    destruct (decide (l0 ≠ pool)); eauto.
Qed.

Lemma processLine_props p pool k v :
  kind p = PoolProps →
  processLine p pool [pool; k; v] = Some (assign p k v, None).
Proof.
  intros Hk. unfold processLine. rewrite decide_True by done.
  rewrite decide_False by (simpl; lia). simpl.
  by rewrite decide_False by (intros H; by apply H).
Qed.

Lemma processLine_iostat p pool c1 c2 r w br bw :
  kind p = PoolIostat →
  processLine p pool [pool; c1; c2; r; w; br; bw]
  = Some (assign (assign (assign (assign p "opread" r) "opwrite" w) "bwwrite" br) "bwwrite" bw,
          None).
Proof.
  intros Hk. unfold processLine. rewrite decide_False by (by rewrite Hk).
  rewrite decide_True by done.
  rewrite decide_False by (simpl; lia). simpl.
  by rewrite decide_False by (intros H; by apply H).
Qed.

Lemma wellFormed_inv pool line :
  wellFormed pool line → ∃ k v, line = [pool; k; v].
Proof.
  intros [Hlen H0].
  destruct line as [|l0 [|l1 [|l2 [|]]]]; simplify_eq/=. eauto.
Qed.

Lemma processLines_app p pool ls1 ls2 p1 :
  processLines p pool ls1 = Some (p1, None) →
  processLines p pool (ls1 ++ ls2) = processLines p1 pool ls2.
Proof.
  revert p. induction ls1 as [|l ls1 IH]; intros p H; simpl in *.
  - by simplify_eq.
  - destruct (processLine p pool l) as [[p' [e|]]|]; simplify_eq/=; auto.
Qed.

Lemma processLines_wellFormed p pool ls :
  kind p = PoolProps → Forall (wellFormed pool) ls →
  ∃ p', processLines p pool ls = Some (p', None) ∧ kind p' = PoolProps.
Proof.
  intros Hk Hall. revert p Hk.
  induction Hall as [|l ls Hl _ IH]; intros p Hk; simpl.
  - eauto.
  - destruct (wellFormed_inv _ _ Hl) as (k & v & ->).
    rewrite processLine_props by done. simpl. by apply IH.
Qed.

Lemma processLines_no_panic p pool ls : is_Some (processLines p pool ls).
Proof.
  revert p. induction ls as [|l ls IH]; intros p; simpl; [eauto|].
  destruct (processLine_no_panic p pool l) as [[p' [e|]] ->]; simpl; eauto.
Qed.

(** With a supported kind, a line of the wrong length or for another pool
    is refused with [ErrInvalidOutput] and the handler is left as it
    was. *)
Lemma processLine_rejects p pool line :
  kind p = PoolProps ∨ kind p = PoolIostat →
  Z.of_nat (length line) ≠ getFieldsPerRecord p ∨ line !! 0 ≠ Some pool →
  processLine p pool line = Some (p, Some ErrInvalidOutput).
Proof.
  intros Hk Hbad. unfold processLine, getFieldsPerRecord in *.
  destruct (decide (kind p = PoolProps)) as [Hp|Hp].
  - destruct (decide (length line ≠ 3)) as [|Hn]; [done|].
    apply dec_stable in Hn.
    destruct line as [|l0 [|l1 [|l2 [|]]]]; simplify_eq/=.
    destruct Hbad as [?|Hbad]; [lia|].
    rewrite decide_True; [done|]. congruence.
  - destruct Hk as [?|Hi]; [done|]. rewrite !decide_True in * by done.
    destruct (decide (length line ≠ 7)) as [|Hn]; [done|].
    apply dec_stable in Hn.
    destruct line as [|l0 [|l1 [|l2 [|l3 [|l4 [|l5 [|l6 [|]]]]]]]]; simplify_eq/=.
    destruct Hbad as [?|Hbad]; [lia|].
    rewrite decide_True; [done|]. congruence.
Qed.

(** With a supported kind, the only error [processLine] reports is
    [ErrInvalidOutput]. *)
Lemma processLine_error p pool line p' e :
  kind p = PoolProps ∨ kind p = PoolIostat →
  processLine p pool line = Some (p', Some e) → e = ErrInvalidOutput.
Proof.
  intros Hk H.
  destruct (decide (Z.of_nat (length line) ≠ getFieldsPerRecord p ∨ line !! 0 ≠ Some pool))
    as [Hbad|Hok].
  - rewrite processLine_rejects in H by done. by simplify_eq.
  - exfalso.
    assert (Z.of_nat (length line) = getFieldsPerRecord p) as Hlen
      by (apply dec_stable; intros ?; apply Hok; by left).
    assert (line !! 0 = Some pool) as H0
      by (apply dec_stable; intros ?; apply Hok; by right).
    clear Hok.
    unfold processLine, getFieldsPerRecord in *.
    destruct (decide (kind p = PoolProps)) as [Hp|Hp].
    + rewrite decide_False in H by lia. rewrite H0 in H. simpl in H.
      rewrite decide_False in H by (intros Hne; by apply Hne).
      destruct (line !! 1), (line !! 2); by simplify_eq/=.
    + destruct Hk as [?|Hi]; [done|]. rewrite !decide_True in * by done.
      rewrite decide_False in H by lia. rewrite H0 in H. simpl in H.
      rewrite decide_False in H by (intros Hne; by apply Hne).
      destruct (line !! 3), (line !! 4), (line !! 5), (line !! 6); by simplify_eq/=.
Qed.

Lemma getFieldsPerRecord_iostat p :
  kind p = PoolIostat → getFieldsPerRecord p = 7%Z.
Proof.
  intros Hk. unfold getFieldsPerRecord.
  rewrite decide_False by (by rewrite Hk). by rewrite decide_True.
Qed.

Lemma getFieldsPerRecord_kind p p' :
  kind p' = kind p → getFieldsPerRecord p' = getFieldsPerRecord p.
Proof. unfold getFieldsPerRecord. by intros ->. Qed.

(** A run of lines with a bad line in it ends in [ErrInvalidOutput]. *)
Lemma processLines_rejects p pool lines line :
  kind p = PoolProps ∨ kind p = PoolIostat →
  line ∈ lines →
  Z.of_nat (length line) ≠ getFieldsPerRecord p ∨ line !! 0 ≠ Some pool →
  ∃ p', processLines p pool lines = Some (p', Some ErrInvalidOutput).
Proof.
  intros Hk Hin Hbad. revert p Hk Hbad.
  induction lines as [|l lines IH]; intros p Hk Hbad; [by apply elem_of_nil in Hin|].
  simpl. destruct (processLine_no_panic p pool l) as [[p' [e|]] Hl]; rewrite Hl; simpl.
  - apply processLine_error in Hl as ->; eauto.
  - apply elem_of_cons in Hin as [->|Hin].
    + rewrite processLine_rejects in Hl by done. done.
    + pose proof (processLine_kind _ _ _ _ _ Hl) as Hkind.
      apply IH; [done|by rewrite Hkind|].
      by rewrite (getFieldsPerRecord_kind p p').
Qed.

Lemma execute_no_panic sys pool p cmd args : is_Some (execute sys pool p cmd args).
Proof.
  unfold execute. destruct (pipeErr _); [eauto|]. destruct (startErr _); [eauto|].
  destruct (processLines_no_panic p pool (stdout (sys pool (cmd :: args))))
    as [[p' [e|]] ->]; simpl; eauto.
Qed.

Lemma Properties_no_panic sys (pi : poolImpl) props : is_Some (Properties sys pi props).
Proof.
  unfold Properties. repeat case_decide; [..|eauto].
  - destruct (execute_no_panic sys (name pi) (newPoolPropertiesImpl (pkind pi)) "zpool"
                ["get"; "-Hpo"; "name,property,value"; String.concat "," props])
      as [[h [e|]] ->]; simpl; eauto.
  - destruct (execute_no_panic sys (name pi) (newPoolPropertiesImpl (pkind pi)) "zpool"
                ["iostat"; "-Hyp"]) as [[h [e|]] ->]; simpl; eauto.
Qed.

(** When the command starts and prints a bad line, [Properties] reports
    [ErrInvalidOutput]. *)
Lemma Properties_invalid_output sys (pi : poolImpl) props line :
  pkind pi = PoolProps ∨ pkind pi = PoolIostat →
  (∀ argv, pipeErr (sys (name pi) argv) = None ∧ startErr (sys (name pi) argv) = None ∧
           line ∈ stdout (sys (name pi) argv)) →
  Z.of_nat (length line) ≠ getFieldsPerRecord (newPoolPropertiesImpl (pkind pi))
    ∨ line !! 0 ≠ Some (name pi) →
  ∃ h, Properties sys pi props = Some (h, Some ErrInvalidOutput).
Proof.
  intros Hk Hsys Hbad.
  assert (∀ cmd args, ∃ h,
    execute sys (name pi) (newPoolPropertiesImpl (pkind pi)) cmd args
    = Some (h, Some ErrInvalidOutput)) as Hex.
  { intros cmd args. unfold execute.
    destruct (Hsys (cmd :: args)) as (-> & -> & Hin).
    destruct (processLines_rejects (newPoolPropertiesImpl (pkind pi)) (name pi) _ line Hk Hin Hbad)
      as [h ->]. simpl. eauto. }
  unfold Properties. destruct Hk as [Hk|Hk].
  - rewrite decide_True by done.
    destruct (Hex "zpool" ["get"; "-Hpo"; "name,property,value"; String.concat "," props])
      as [h ->]. simpl. eauto.
  - rewrite decide_False by (by rewrite Hk). rewrite decide_True by done.
    destruct (Hex "zpool" ["iostat"; "-Hyp"]) as [h ->]. simpl. eauto.
Qed.

End LineHandler.

Section LineHandlerClaims.

Import zfs.

Implicit Types (p : poolPropertiesImpl) (pool k v : string) (line : list string).

(** C4.  A properties line [(name, k, v)] whose name is the queried pool
    is accepted: [processLine] returns no error, the map then holds
    [k -> v], and every other key is as before. *)
Theorem processLine_props_sets_key p pool line k v :
  kind p = PoolProps →
  length line = 3 →
  line !! 0 = Some pool → line !! 1 = Some k → line !! 2 = Some v →
  ∃ p', processLine p pool line = Some (p', None) ∧
        properties p' !! k = Some v ∧
        ∀ k', k' ≠ k → properties p' !! k' = properties p !! k'.
Proof.
  intros Hk Hlen H0 H1 H2.
  destruct line as [|l0 [|l1 [|l2 [|]]]]; simplify_eq/=.
  exists (assign p k v). split; [by apply processLine_props|].
  split; simpl.
  - apply lookup_insert_eq.
  - intros k' Hne. by apply lookup_insert_ne.
Qed.

Lemma processLine_props_sets_key_witness :
  ∃ p', processLine (newPoolPropertiesImpl PoolProps) "tank" ["tank"; "size"; "1024"]
        = Some (p', None) ∧
        properties p' !! "size" = Some "1024" ∧
        ∀ k', k' ≠ "size" → properties p' !! k' = (∅ : gmap string string) !! k'.
Proof.
  apply (processLine_props_sets_key (newPoolPropertiesImpl PoolProps)
           "tank" ["tank"; "size"; "1024"] "size" "1024"); reflexivity.
Defined.

(** C10.  [getFieldsPerRecord] answers for every kind: 7 for
    [PoolIostat], and 3 for every other kind, [PoolProps] and the
    unrecognized ones alike. *)
Theorem getFieldsPerRecord_total p :
  getFieldsPerRecord p = (if decide (kind p = PoolIostat) then 7 else 3)%Z.
Proof.
  unfold getFieldsPerRecord.
  destruct (decide (kind p = PoolProps)) as [Hp|Hp].
  - rewrite decide_False; [done|]. by rewrite Hp.
  - by destruct (decide (kind p = PoolIostat)).
Qed.

(** C8.  When two properties lines carry the same key, the later one
    decides: after a run of well-formed lines that ends with the second
    of them, the map holds its value under the key, and no key occurs
    twice among the entries of the map. *)
Theorem processLines_last_write_wins p pool k v1 v2 before between :
  kind p = PoolProps →
  Forall (wellFormed pool) before → Forall (wellFormed pool) between →
  ∃ p', processLines p pool
          (before ++ [pool; k; v1] :: between ++ [[pool; k; v2]]) = Some (p', None) ∧
        properties p' !! k = Some v2 ∧
        NoDup (map_to_list (properties p')).*1.
Proof.
  intros Hk Hb Hm.
  destruct (processLines_wellFormed p pool before Hk Hb) as (p1 & E1 & K1).
  destruct (processLines_wellFormed (assign p1 k v1) pool between K1 Hm) as (p2 & E2 & K2).
  exists (assign p2 k v2). split; [|split].
  - rewrite (processLines_app _ _ _ _ _ E1). simpl.
    rewrite processLine_props by done. simpl.
    rewrite (processLines_app _ _ _ _ _ E2). simpl.
    by rewrite processLine_props by done.
  - apply lookup_insert_eq.
  - apply NoDup_fst_map_to_list.
Qed.

Lemma processLines_last_write_wins_witness :
  ∃ p', processLines (newPoolPropertiesImpl PoolProps) "tank"
          ([["tank"; "size"; "1"]] ++ ["tank"; "free"; "10"]
             :: [["tank"; "health"; "ONLINE"]] ++ [["tank"; "free"; "20"]])
        = Some (p', None) ∧
        properties p' !! "free" = Some "20" ∧
        NoDup (map_to_list (properties p')).*1.
Proof.
  apply (processLines_last_write_wins (newPoolPropertiesImpl PoolProps) "tank" "free" "10" "20"
           [["tank"; "size"; "1"]] [["tank"; "health"; "ONLINE"]]).
  - reflexivity.
  - repeat constructor.
  - repeat constructor.
Defined.

(** C1.  What the handler does with the I/O statistics line of the
    scenario: field 5 and then field 6 are both stored under [bwwrite],
    so [bwread] is absent and the value "4096" is lost. *)
Theorem processLine_iostat_scenario :
  ∃ p', processLine (newPoolPropertiesImpl PoolIostat) "tank"
          ["tank"; "-"; "-"; "120"; "80"; "4096"; "8192"] = Some (p', None) ∧
        properties p' = list_to_map [("opread", "120"); ("opwrite", "80"); ("bwwrite", "8192")] ∧
        properties p' !! "bwread" = None ∧
        properties p' !! "bwwrite" = Some "8192".
Proof.
  eexists. split; [by apply processLine_iostat|].
  split; [|split]; by vm_compute.
Qed.

(** The same for every I/O statistics line: [bwread] is never written. *)
Lemma processLine_iostat_bwread p pool line p' :
  kind p = PoolIostat →
  processLine p pool line = Some (p', None) →
  properties p' !! "bwread" = properties p !! "bwread" ∧
  properties p' !! "bwwrite" = line !! 6.
Proof.
  intros Hk H.
  assert (length line = 7 ∧ line !! 0 = Some pool) as [Hlen H0].
  { destruct (decide (Z.of_nat (length line) ≠ getFieldsPerRecord p ∨ line !! 0 ≠ Some pool))
      as [Hbad|Hok].
    - rewrite processLine_rejects in H by auto. done.
    - rewrite getFieldsPerRecord_iostat in Hok by done.
      split.
      + destruct (decide (length line = 7)); [done|]. destruct Hok. left. lia.
      + destruct (decide (line !! 0 = Some pool)); [done|]. destruct Hok. by right. }
  destruct line as [|l0 [|l1 [|l2 [|l3 [|l4 [|l5 [|l6 [|]]]]]]]]; simplify_eq/=.
  rewrite processLine_iostat in H by done. simplify_eq/=.
  split.
  - by rewrite !lookup_insert_ne by done.
  - by rewrite lookup_insert_eq.
Qed.

End LineHandlerClaims.

(** * The collector *)

Section CollectorClaims.

Import zfs collector.

Context {property metric : Type}.
Variable find : string → property * option error.
Variable push : property → string → list string → list metric * option error.
Variable range : gmap string string → list (string * string).

Lemma pushProperties_app pool kvs1 kvs2 acts :
  pushProperties find push pool kvs1 = (acts, None) →
  pushProperties find push pool (kvs1 ++ kvs2)
  = (acts ++ (pushProperties find push pool kvs2).1, (pushProperties find push pool kvs2).2).
Proof.
  revert acts. induction kvs1 as [|[k v] kvs1 IH]; intros acts H; simpl in *.
  - simplify_eq. by destruct (pushProperties find push pool kvs2).
  - destruct (find k) as [prop ferr]. destruct (push prop v [pool]) as [ms [pe|]]; [done|].
    destruct (pushProperties find push pool kvs1) as [acts1 r1] eqn:E1.
    simplify_eq. rewrite (IH acts1 eq_refl). simpl.
    by rewrite <- !app_assoc.
Qed.

(** When the client reports an error, [updatePoolMetrics] returns it and
    does nothing else, whatever the map that comes with it. *)
Lemma updatePoolMetrics_client_error c pool m e :
  client c pool (kind c) (props c) = (m, Some e) →
  updatePoolMetrics find push range c pool = ([], Some e).
Proof. unfold updatePoolMetrics. by intros ->. Qed.

(** C5.  With a supported kind, a line whose number of fields is not the
    one the kind requires, or whose first field is not the queried pool,
    makes [processLine] return [ErrInvalidOutput]; and when that error
    reaches [updatePoolMetrics] as the result of [Properties], it is
    returned at once: nothing is looked up, pushed or logged, whatever
    the map accumulated so far. *)
Theorem invalid_line_rejected p pool line c m :
  zfs.kind p = PoolProps ∨ zfs.kind p = PoolIostat →
  Z.of_nat (length line) ≠ getFieldsPerRecord p ∨ line !! 0 ≠ Some pool →
  processLine p pool line = Some (p, Some ErrInvalidOutput) ∧
  (client c pool (collector.kind c) (props c) = (m, Some ErrInvalidOutput) →
   updatePoolMetrics find push range c pool = ([], Some ErrInvalidOutput)).
Proof.
  intros Hk Hbad. split.
  - by apply processLine_rejects.
  - apply updatePoolMetrics_client_error.
Qed.

(** The same from end to end, with the client built on package [zfs]: a
    bad line in the output of the command makes [updatePoolMetrics] return
    [ErrInvalidOutput] and do nothing else. *)
Lemma updatePoolMetrics_invalid_output sys k ps pool line :
  k = PoolProps ∨ k = PoolIostat →
  (∀ argv, pipeErr (sys pool argv) = None ∧ startErr (sys pool argv) = None ∧
           line ∈ stdout (sys pool argv)) →
  Z.of_nat (length line) ≠ getFieldsPerRecord (newPoolPropertiesImpl k)
    ∨ line !! 0 ≠ Some pool →
  updatePoolMetrics find push range (mkCollector k (zfsClient sys) ps) pool
  = ([], Some ErrInvalidOutput).
Proof.
  intros Hk Hsys Hbad.
  destruct (Properties_invalid_output sys (newPoolImpl pool k) ps line Hk Hsys Hbad)
    as [h Hh].
  apply (updatePoolMetrics_client_error _ _ (zfs.properties h)).
  simpl. unfold zfsClient. by rewrite Hh.
Qed.

(** The loop of [updatePoolMetrics] at a key whose lookup fails, anywhere
    in the map: when the pushes before it have succeeded, the failure is
    logged as a warning and the lookup error is dropped, but the pair is
    not skipped: it is pushed through the descriptor that [find] returned
    with the error.  What [push] sends is sent; an error of [push] ends
    the resource there; otherwise the remaining keys are processed as
    usual. *)
Theorem updatePoolMetrics_unresolved_key c pool m before k v after prop e acts :
  client c pool (collector.kind c) (props c) = (m, None) →
  range m = before ++ (k, v) :: after →
  pushProperties find push pool before = (acts, None) →
  find k = (prop, Some e) →
  updatePoolMetrics find push range c pool =
    match push prop v [pool] with
    | (ms, Some pe) => (acts ++ Warn k e :: (Emit <$> ms), Some pe)
    | (ms, None) =>
        (acts ++ Warn k e :: (Emit <$> ms) ++ (pushProperties find push pool after).1,
         (pushProperties find push pool after).2)
    end.
Proof.
  intros Hc Hr Hb Hf. unfold updatePoolMetrics. rewrite Hc, Hr.
  rewrite (pushProperties_app _ _ _ _ Hb). simpl. rewrite Hf.
  destruct (push prop v [pool]) as [ms [pe|]]; [done|].
  by destruct (pushProperties find push pool after).
Qed.


(** Where the skipping would have to be: [updatePoolMetrics] skips the
    pairs of unregistered keys exactly when [push] itself stays silent on
    every descriptor that [find] returns with an error. *)
Lemma unresolvedSkipped_iff_push_silent :
  (∀ m, range m ≡ₚ map_to_list m) →
  unresolvedSkipped find push range ↔
  ∀ k prop e v pool, find k = (prop, Some e) → push prop v [pool] = ([], None).
Proof.
  intros Hrange. unfold unresolvedSkipped, updatePoolMetrics. split.
  - intros H k prop e v pool Hf.
    assert (range {[k := v]} = [(k, v)]) as Hr.
    { apply Permutation_singleton_r. by rewrite Hrange, map_to_list_singleton. }
    specialize (H (mkCollector "" (fun _ _ _ => ({[k := v]}, None)) []) pool
                  {[k := v]} k v prop e eq_refl Hr Hf).
    simpl in H. rewrite Hr in H. simpl in H. rewrite Hf in H.
    destruct (push prop v [pool]) as [ms [pe|]]; [done|].
    destruct ms; by simplify_eq/=.
  - intros H c pool m k v prop e Hc Hr Hf. rewrite Hc, Hr. simpl.
    by rewrite Hf, (H _ _ _ _ _ Hf).
Qed.

End CollectorClaims.

Section CollectorExamples.

Import zfs collector.

Lemma invalid_line_rejected_witness :
  processLine (newPoolPropertiesImpl PoolProps) "tank" ["other"; "size"; "1"]
  = Some (newPoolPropertiesImpl PoolProps, Some ErrInvalidOutput) ∧
  updatePoolMetrics sample.find sample.push sample.range
    (mkCollector PoolProps (fun _ _ _ => ({[ "size" := "1" ]}, Some ErrInvalidOutput)) [])
    "tank"
  = ([], Some ErrInvalidOutput).
Proof.
  pose proof (invalid_line_rejected sample.find sample.push sample.range
                (newPoolPropertiesImpl PoolProps) "tank" ["other"; "size"; "1"]
                (mkCollector PoolProps
                   (fun _ _ _ => ({[ "size" := "1" ]}, Some ErrInvalidOutput)) [])
                {[ "size" := "1" ]}) as H.
  destruct H as [H1 H2].
  - left. reflexivity.
  - right. simpl. discriminate.
  - split; [exact H1 | apply H2; reflexivity].
Defined.


Lemma updatePoolMetrics_unresolved_key_witness :
  updatePoolMetrics sample.find sample.push sample.range sample.guidCollector "tank"
  = ([Warn "guid" sample.errUnsupported; Emit ("unsupported_guid", "123", ["tank"])], None).
Proof.
  apply (updatePoolMetrics_unresolved_key sample.find sample.push sample.range
           sample.guidCollector "tank" {[ "guid" := "123" ]} [] "guid" "123" []
           "unsupported_guid" sample.errUnsupported []).
  - reflexivity.
  - vm_compute. reflexivity.
  - reflexivity.
  - vm_compute. reflexivity.
Defined.

(** C6.  A kind other than [PoolProps] and [PoolIostat] is refused when
    the collector is built: no collector, and the error "unknown pool
    type". *)
Theorem newPoolCollector_unknown_kind (k : PoolKind) (c : Client) (ps : list string) :
  k ≠ PoolProps → k ≠ PoolIostat →
  newPoolCollector k c ps = (None, Some (Errorf ("unknown pool type: " +:+ k))).
Proof.
  intros H1 H2. unfold newPoolCollector.
  rewrite decide_False; [done|]. by intros [?|?].
Qed.

Lemma newPoolCollector_unknown_kind_witness :
  newPoolCollector "datasets" (zfsClient sample.sys) []
  = (None, Some (Errorf "unknown pool type: datasets")).
Proof.
  apply (newPoolCollector_unknown_kind "datasets" (zfsClient sample.sys) []); discriminate.
Defined.

Lemma newPoolCollector_supported (k : PoolKind) (c : Client) (ps : list string) :
  k = PoolProps ∨ k = PoolIostat →
  newPoolCollector k c ps = (Some (mkCollector k c ps), None).
Proof. intros H. unfold newPoolCollector. by rewrite decide_True. Qed.

(** C7.  The health-code transform sends ONLINE, DEGRADED, FAULTED,
    OFFLINE, UNAVAIL, REMOVED, SUSPENDED to 0, 1, 2, 3, 4, 5, 6 in this
    order, and every other token to an error. *)
Theorem transformHealthCode_codes (status : string) :
  transformHealthCode
    <$> ["ONLINE"; "DEGRADED"; "FAULTED"; "OFFLINE"; "UNAVAIL"; "REMOVED"; "SUSPENDED"]
  = inl <$> [0; 1; 2; 3; 4; 5; 6]%Z ∧
  healthCodes
  = [(0, "ONLINE"); (1, "DEGRADED"); (2, "FAULTED"); (3, "OFFLINE");
     (4, "UNAVAIL"); (5, "REMOVED"); (6, "SUSPENDED")]%Z ∧
  (status ∉ ["ONLINE"; "DEGRADED"; "FAULTED"; "OFFLINE"; "UNAVAIL"; "REMOVED"; "SUSPENDED"] →
   transformHealthCode status = inr (Errorf ("unknown health status: " +:+ status))).
Proof.
  split; [reflexivity|]. split; [reflexivity|].
  intros Hn. unfold transformHealthCode.
  repeat (case_decide; [exfalso; apply Hn; subst status; set_solver|]).
  reflexivity.
Qed.

Lemma transformHealthCode_codes_witness :
  transformHealthCode "ONLINE" = inl 0%Z ∧
  transformHealthCode "SUSPENDED" = inl 6%Z ∧
  transformHealthCode "online" = inr (Errorf "unknown health status: online").
Proof.
  destruct (transformHealthCode_codes "online") as (H1 & _ & H3).
  split; [|split].
  - by inversion H1.
  - by inversion H1.
  - apply H3. intros Hin. apply list_elem_of_In in Hin. simpl in Hin.
    repeat (destruct Hin as [Hin|Hin]; [discriminate Hin|]). exact Hin.
Defined.

End CollectorExamples.

(** * The pass over the pools *)

Section UpdateProofs.

Import collector.

Context {metric : Type}.
Variable body : nat → string → list (@action metric) * option error.
Variable ch0 : list metric.
Variable pools : list string.

Abbreviation ustate := (@ustate metric).
Abbreviation goroutine := (@goroutine metric).
Abbreviation invariant := (invariant body ch0 pools).

Implicit Types (s : ustate) (g : goroutine).

Lemma allErrors_length i ps : length (allErrors body i ps) ≤ length ps.
Proof.
  revert i. induction ps as [|pool ps IH]; intros i; simpl; [lia|].
  rewrite length_app. specialize (IH (S i)).
  destruct (body i pool).2; simpl; lia.
Qed.

Lemma elem_of_allErrors e i ps :
  e ∈ allErrors body i ps ↔ ∃ j pool, ps !! j = Some pool ∧ (body (i + j) pool).2 = Some e.
Proof.
  revert i. induction ps as [|pool ps IH]; intros i; simpl.
  - split; [by intros ?%elem_of_nil | by intros (j & ? & ? & _)].
  - rewrite elem_of_app, IH. split.
    + intros [He|(j & pool' & Hj & He)].
      * exists 0, pool. rewrite Nat.add_0_r. split; [done|].
        destruct (body i pool).2 as [e'|]; simpl in He.
        -- apply list_elem_of_singleton in He. by subst.
        -- by apply elem_of_nil in He.
      * exists (S j), pool'. split; [done|]. by rewrite Nat.add_succ_r.
    + intros ([|j] & pool' & Hj & He); simplify_eq/=.
      * left. rewrite Nat.add_0_r in He. rewrite He. simpl.
        by apply list_elem_of_singleton.
      * right. exists j, pool'. split; [done|]. by rewrite Nat.add_succ_r in He.
Qed.

Lemma elem_of_allMetrics m i ps :
  m ∈ allMetrics body i ps ↔
  ∃ j pool, ps !! j = Some pool ∧ m ∈ emitted (body (i + j) pool).1.
Proof.
  revert i. induction ps as [|pool ps IH]; intros i; simpl.
  - split; [by intros ?%elem_of_nil | by intros (j & ? & ? & _)].
  - rewrite elem_of_app, IH. split.
    + intros [He|(j & pool' & Hj & He)].
      * exists 0, pool. by rewrite Nat.add_0_r.
      * exists (S j), pool'. split; [done|]. by rewrite Nat.add_succ_r.
    + intros ([|j] & pool' & Hj & He); simplify_eq/=.
      * left. by rewrite Nat.add_0_r in He.
      * right. exists j, pool'. split; [done|]. by rewrite Nat.add_succ_r in He.
Qed.

Lemma invariant_initial : invariant (initial ch0 pools).
Proof.
  split; simpl; [done|done| |done].
  exists []. by rewrite app_nil_r.
Qed.

Lemma goroutine_split (l : list goroutine) i g :
  l !! i = Some g →
  ∃ l1 l2, l = l1 ++ g :: l2 ∧ ∀ g', <[i := g']> l = l1 ++ g' :: l2.
Proof.
  intros H. exists (take i l), (drop (S i) l). split.
  - by rewrite take_drop_middle.
  - intros g'. apply insert_take_drop. by eapply lookup_lt_Some.
Qed.

Lemma live_none (l : list goroutine) i g :
  sum_list_with live l = 0 → l !! i = Some g → g = GExit.
Proof.
  intros Hz Hi. apply list_elem_of_lookup_2 in Hi.
  pose proof (sum_list_with_in _ live _ Hi) as Hle.
  destruct g; simpl in Hle; first [done | lia].
Qed.

Lemma live_none_pending {B} (f : goroutine → list B) (l : list goroutine) :
  (f GExit = []) → sum_list_with live l = 0 → l ≫= f = [].
Proof.
  intros Hf. induction l as [|g l IH]; simpl; [done|].
  intros Hz. destruct g; simpl in Hz; try lia.
  rewrite Hf. simpl. by apply IH.
Qed.

Lemma invariant_stepUpdate s s' :
  invariant s → stepUpdate body s = Some s' → invariant s'.
Proof.
  intros [Hcap Hwg (sent & Hch & Hsent) Herr] Hstep.
  destruct s as [p l c lg ec cap w]. unfold stepUpdate in Hstep. simpl in *.
  destruct p as [[|pool rest]| |r]; simpl in *.
  - simplify_eq. split; simpl; eauto.
  - destruct (body (length l) pool) as [todo r] eqn:Hb. simplify_eq.
    unfold unspawned in *. simpl in *.
    split; simpl.
    + done.
    + rewrite sum_list_with_app. simpl. lia.
    + exists sent. split; [done|].
      rewrite bind_app, length_app. simpl. rewrite Nat.add_1_r, app_nil_r.
      rewrite <- Hsent. solve_Permutation.
    + rewrite bind_app, length_app. simpl. rewrite Nat.add_1_r, app_nil_r.
      rewrite <- Herr. solve_Permutation.
  - destruct (decide (w = 0%Z)) as [->|]; [|done].
    assert (sum_list_with live l = 0) as Hz by lia.
    assert (ec ≡ₚ allErrors body 0 pools) as Hec.
    { rewrite <- Herr. unfold unspawned. simpl.
      rewrite (live_none_pending pendingErrors) by done. by rewrite !app_nil_r. }
    destruct ec as [|e es]; simplify_eq; split; simpl; eauto 10.
  - done.
Qed.

Lemma invariant_stepGoroutine i s s' :
  invariant s → stepGoroutine i s = Some s' → invariant s'.
Proof.
  intros [Hcap Hwg (sent & Hch & Hsent) Herr] Hstep.
  destruct s as [p l c lg ec cap w]. unfold stepGoroutine, setGoroutine in Hstep.
  unfold unspawned in *. simpl in *.
  destruct (l !! i) as [g|] eqn:Hi; [|done]. simpl in Hstep.
  assert (∀ r, p = PReturn r → False) as Hp.
  { intros r ->. destruct Herr as [-> _].
    assert (g = GExit) as -> by (eapply live_none; [|done]; lia). done. }
  destruct (goroutine_split l i g Hi) as (l1 & l2 & -> & Hins).
  clear Hi.
  set (rest := match p with PSpawn rest => rest | _ => [] end) in *.
  rewrite bind_app, bind_cons in Hsent.
  assert (ec ++ (l1 ≫= pendingErrors) ++ pendingErrors g ++ (l2 ≫= pendingErrors)
             ++ allErrors body (length (l1 ++ g :: l2)) rest
          ≡ₚ allErrors body 0 pools) as Herr'.
  { destruct p; [| |by destruct (Hp r)];
      rewrite bind_app, bind_cons in Herr; rewrite <- Herr; solve_Permutation. }
  assert (∀ g' ec' sent' lg' w',
    w' = Z.of_nat (sum_list_with live (l1 ++ g' :: l2)) →
    sent' ++ (l1 ≫= pendingMetrics) ++ pendingMetrics g' ++ (l2 ≫= pendingMetrics)
       ++ allMetrics body (length (l1 ++ g :: l2)) rest
       ≡ₚ allMetrics body 0 pools →
    ec' ++ (l1 ≫= pendingErrors) ++ pendingErrors g' ++ (l2 ≫= pendingErrors)
       ++ allErrors body (length (l1 ++ g :: l2)) rest
       ≡ₚ allErrors body 0 pools →
    invariant (mkState p (l1 ++ g' :: l2) (ch0 ++ sent') lg' ec' cap w')) as Hmk.
  { intros g' ec' sent' lg' w' H2 H4 H5.
    assert (length (l1 ++ g' :: l2) = length (l1 ++ g :: l2)) as Hlen
      by (by rewrite !length_app).
    split; unfold unspawned; simpl; fold rest; rewrite ?Hlen; [done|done| |].
    - exists sent'. split; [done|]. rewrite bind_app, bind_cons.
      rewrite <- H4. solve_Permutation.
    - destruct p; [| |by destruct (Hp r)];
        rewrite bind_app, bind_cons; rewrite <- H5; solve_Permutation. }
  rewrite sum_list_with_app in Hwg. simpl in Hwg.
  clear Herr Hp. subst c.
  destruct g as [[|[m|k e] todo] [e'|]|e| |]; simpl in Hstep, Hwg, Hsent, Herr';
    try case_decide; simplify_eq;
    rewrite Hins, <- ?app_assoc;
    (apply Hmk; simpl;
      [ rewrite sum_list_with_app; simpl; lia
      | rewrite <- Hsent; solve_Permutation
      | rewrite <- Herr'; solve_Permutation ]).
Qed.

Lemma invariant_step s s' : invariant s → step body s s' → invariant s'.
Proof.
  intros Hinv [[|i] Hc]; simpl in Hc.
  - by eapply invariant_stepUpdate.
  - by eapply invariant_stepGoroutine.
Qed.

Lemma invariant_reachable s : reachable body ch0 pools s → invariant s.
Proof.
  unfold reachable. intros H.
  apply (rtc_ind_r (R := step body) (λ s, invariant s) (initial ch0 pools)); [..|done].
  - apply invariant_initial.
  - intros s1 s2 _ Hs IH. by eapply invariant_step.
Qed.

(** A goroutine that stands at [errChan <- err] finds room in the
    channel, and [update] has not returned. *)
Lemma errChan_room s i e :
  invariant s → gs s !! i = Some (GReport e) →
  length (errChan s) < errCap s ∧ ∀ r, pc s ≠ PReturn r.
Proof.
  intros [Hcap Hwg _ Herr] Hi.
  assert (∀ r, pc s ≠ PReturn r) as Hp.
  { intros r Hr. rewrite Hr in Herr. destruct Herr as [Hz _].
    assert (GReport e = (GExit : goroutine)); [|done].
    eapply live_none; [|done]. lia. }
  split; [|done].
  destruct (goroutine_split _ _ _ Hi) as (l1 & l2 & Hl & _).
  assert (length (errChan s ++ (gs s ≫= pendingErrors) ++
                  allErrors body (length (gs s)) (unspawned s))
          = length (allErrors body 0 pools)) as Hlen.
  { destruct (pc s) eqn:Hpc; [| |by destruct (Hp r)]; by rewrite Herr. }
  rewrite Hl, bind_app, bind_cons in Hlen. rewrite !length_app in Hlen. simpl in Hlen.
  pose proof (allErrors_length 0 pools). lia.
Qed.

Lemma errChan_bounded s : invariant s → length (errChan s) ≤ errCap s.
Proof.
  intros [Hcap _ _ Herr]. rewrite Hcap.
  pose proof (allErrors_length 0 pools) as Hle.
  destruct (pc s).
  - apply Permutation_length in Herr. rewrite !length_app in Herr. lia.
  - apply Permutation_length in Herr. rewrite !length_app in Herr. lia.
  - destruct Herr as (_ & es & Hes & _ & ->).
    apply Permutation_length in Hes. destruct es; simpl in *; lia.
Qed.

Lemma live_some (l : list goroutine) :
  sum_list_with live l ≠ 0 → ∃ i g, l !! i = Some g ∧ g ≠ GExit.
Proof.
  induction l as [|g l IH]; simpl; [done|]. intros Hs.
  destruct g as [todo r|e| |].
  4: { destruct IH as (i & g' & Hi & Hg'); [done|]. by exists (S i), g'. }
  all: by eexists 0, _.
Qed.

(** No deadlock: as long as [update] has not returned, some step is
    enabled. *)
Lemma progress s :
  invariant s → (∀ r, pc s ≠ PReturn r) → ∃ s', step body s s'.
Proof.
  intros Hinv Hp.
  destruct (pc s) as [rest| |r] eqn:Hpc; [| |by destruct (Hp r)].
  - assert (is_Some (stepUpdate body s)) as [s' Hs']; [|by exists s', Main].
    unfold stepUpdate. rewrite Hpc.
    destruct rest as [|pool rest']; [done|]. by destruct (body (length (gs s)) pool).
  - destruct (decide (wg s = 0%Z)) as [Hz|Hnz].
    + assert (is_Some (stepUpdate body s)) as [s' Hs']; [|by exists s', Main].
      unfold stepUpdate. rewrite Hpc.
      rewrite decide_True by done. by destruct (errChan s).
    + destruct (live_some (gs s)) as (i & g & Hi & Hg).
      { pose proof (inv_wg _ _ _ _ Hinv). lia. }
      assert (is_Some (stepGoroutine i s)) as [s' Hs']; [|by exists s', (Go i)].
      unfold stepGoroutine. rewrite Hi. simpl.
      destruct g as [[|[m|k e] todo] [e'|]|e| |]; try done.
      destruct (errChan_room s i e Hinv Hi) as [Hroom _].
      by rewrite decide_True.
Qed.

Lemma stepUpdate_decreases s s' :
  stepUpdate body s = Some s' → stepsLeft body s' < stepsLeft body s.
Proof.
  destruct s as [p l c lg ec cap w]. unfold stepUpdate, stepsLeft. simpl.
  destruct p as [[|pool rest]| |r]; simpl; intros H.
  - simplify_eq. simpl. lia.
  - destruct (body (length l) pool) as [todo r] eqn:Hb. simplify_eq. simpl.
    rewrite sum_list_with_app, length_app, Nat.add_1_r. simpl. lia.
  - case_decide; [|done]. destruct ec; simplify_eq; simpl; lia.
  - done.
Qed.

Lemma stepGoroutine_decreases i s s' :
  stepGoroutine i s = Some s' → stepsLeft body s' < stepsLeft body s.
Proof.
  destruct s as [p l c lg ec cap w]. unfold stepGoroutine, setGoroutine, stepsLeft. simpl.
  destruct (l !! i) as [g|] eqn:Hi; [|done]. simpl.
  destruct (goroutine_split l i g Hi) as (l1 & l2 & -> & Hins).
  assert (∀ g', length (l1 ++ g' :: l2) = length (l1 ++ g :: l2)) as Hlen
    by (intros; by rewrite !length_app).
  intros H.
  destruct g as [[|[m|k e] todo] [e'|]|e| |]; try case_decide; simplify_eq; simpl;
    rewrite Hins, Hlen, !sum_list_with_app; simpl; lia.
Qed.

Lemma step_decreases s s' : step body s s' → stepsLeft body s' < stepsLeft body s.
Proof.
  intros [[|i] Hc]; simpl in Hc.
  - by apply stepUpdate_decreases.
  - by eapply stepGoroutine_decreases.
Qed.

(** Whatever the scheduler has done so far, the pass can be brought to its
    end: [update] returns. *)
Lemma completes s :
  invariant s → ∃ s' r, rtc (step body) s s' ∧ pc s' = PReturn r.
Proof.
  remember (stepsLeft body s) as n eqn:Hn. revert s Hn.
  induction (lt_wf n) as [n _ IH]. intros s -> Hinv.
  destruct (pc s) as [rest| |r] eqn:Hpc.
  3: { by exists s, r. }
  all: destruct (progress s Hinv) as [s1 Hs1]; [by rewrite Hpc|];
    destruct (IH _ (step_decreases _ _ Hs1) s1 eq_refl (invariant_step _ _ Hinv Hs1))
      as (s' & r & Hrtc & Hr);
    exists s', r; split; [by eapply rtc_l|done].
Qed.

Lemma exec_reachable sched s s' :
  exec body sched s = Some s' → rtc (step body) s s'.
Proof.
  revert s. induction sched as [|c sched IH]; intros s H; simpl in H.
  - by simplify_eq.
  - destruct (stepChoice body c s) as [s1|] eqn:Hc; [|done]. simpl in H.
    eapply rtc_l; [by exists c|]. by apply IH.
Qed.

(** What [update] returns, and what the output channel holds then. *)
Lemma returned s r :
  invariant s → pc s = PReturn r →
  (∃ es, es ≡ₚ allErrors body 0 pools ∧ r = head es) ∧
  (∃ sent, ch s = ch0 ++ sent ∧ sent ≡ₚ allMetrics body 0 pools).
Proof.
  intros [_ Hwg (sent & Hch & Hsent) Herr] Hpc. rewrite Hpc in Herr.
  destruct Herr as (Hz & es & Hes & -> & _). split; [by exists es|].
  exists sent. split; [done|]. rewrite <- Hsent.
  unfold unspawned. rewrite Hpc. simpl.
  rewrite (live_none_pending pendingMetrics) by (done || lia).
  by rewrite !app_nil_r.
Qed.

End UpdateProofs.

Section UpdateClaims.

Import collector.

Context {property metric : Type}.
Variable find : string → property * option error.
Variable push : property → string → list string → list metric * option error.
Variable range : gmap string string → list (string * string).
Variable c : poolCollector.

Lemma updateBody_errors i pools e :
  e ∈ allErrors (updateBody find push range c) i pools ↔
  ∃ pool, pool ∈ pools ∧ (updatePoolMetrics find push range c pool).2 = Some e.
Proof.
  rewrite elem_of_allErrors. unfold updateBody. split.
  - intros (j & pool & Hj & He). exists pool. split; [|done].
    by eapply list_elem_of_lookup_2.
  - intros (pool & [j Hj]%list_elem_of_lookup_1 & He). by exists j, pool.
Qed.

Lemma updateBody_metrics i pools m :
  m ∈ allMetrics (updateBody find push range c) i pools ↔
  ∃ pool, pool ∈ pools ∧ Emit m ∈ (updatePoolMetrics find push range c pool).1.
Proof.
  assert (∀ acts : list (@action metric), m ∈ emitted acts ↔ Emit m ∈ acts) as Hem.
  { intros acts. unfold emitted. rewrite list_elem_of_omap. split.
    - intros ([m'|k e] & Hin & Heq); by simplify_eq.
    - intros Hin. by exists (Emit m). }
  rewrite elem_of_allMetrics. unfold updateBody. split.
  - intros (j & pool & Hj & He). exists pool. split; [by eapply list_elem_of_lookup_2|].
    by apply Hem.
  - intros (pool & [j Hj]%list_elem_of_lookup_1 & He). exists j, pool.
    split; [done|]. by apply Hem.
Qed.

(** C3.  Under every schedule [update] returns.  It returns [nil] exactly
    when the call for every pool returned [nil]; otherwise it returns one
    error, which is the error of one of the failed calls.  The output
    channel then holds what it held before followed by everything the
    calls sent, in some interleaving: in particular every metric sent for
    a pool is there, whether or not another pool failed. *)
Theorem update_reports_one_error (ch0 : list metric) (pools : list string) (s : ustate) :
  update find push range c ch0 pools s →
  (∃ s' r, rtc (step (updateBody find push range c)) s s' ∧ pc s' = PReturn r) ∧
  (∀ r, pc s = PReturn r →
     (r = None ↔
        ∀ pool, pool ∈ pools → (updatePoolMetrics find push range c pool).2 = None) ∧
     (∀ e, r = Some e →
        ∃ pool, pool ∈ pools ∧ (updatePoolMetrics find push range c pool).2 = Some e) ∧
     (∃ sent, ch s = ch0 ++ sent ∧
              sent ≡ₚ allMetrics (updateBody find push range c) 0 pools) ∧
     (∀ pool m, pool ∈ pools →
        Emit m ∈ (updatePoolMetrics find push range c pool).1 → m ∈ ch s)).
Proof.
  intros Hreach. apply invariant_reachable in Hreach. split.
  - by eapply completes.
  - intros r Hpc.
    destruct (returned _ _ _ _ _ Hreach Hpc) as [(es & Hes & ->) (sent & Hch & Hsent)].
    assert (∀ e, head es = Some e →
      ∃ pool, pool ∈ pools ∧ (updatePoolMetrics find push range c pool).2 = Some e) as Hsome.
    { intros e He%head_Some_elem_of. rewrite Hes in He. by apply updateBody_errors in He. }
    repeat split.
    + intros Hnone pool Hpool.
      destruct (updatePoolMetrics find push range c pool).2 as [e|] eqn:He; [|done].
      assert (e ∈ es) as Hin by (rewrite Hes; apply updateBody_errors; eauto).
      destruct es; [by apply elem_of_nil in Hin | done].
    + intros Hall. destruct (head es) as [e|] eqn:He; [|done].
      destruct (Hsome e eq_refl) as (pool & Hpool & Hp). by rewrite Hall in Hp.
    + done.
    + by exists sent.
    + intros pool m Hpool Hm. rewrite Hch, elem_of_app. right. rewrite Hsent.
      apply updateBody_metrics. eauto.
Qed.

(** C9.  [errChan] is made with room for one error per pool, and that is
    enough: it never holds more than that, and a goroutine that reaches
    [errChan <- err] finds a free slot, so its send is enabled, while
    [update] has not yet returned. *)
Theorem errChan_never_blocks (ch0 : list metric) (pools : list string) (s : ustate) :
  update find push range c ch0 pools s →
  errCap (initial ch0 pools) = length pools ∧
  errCap s = length pools ∧
  length (errChan s) ≤ errCap s ∧
  ∀ i e, gs s !! i = Some (GReport e) →
    length (errChan s) < errCap s ∧
    is_Some (stepGoroutine i s) ∧
    ∀ r, pc s ≠ PReturn r.
Proof.
  intros Hreach. apply invariant_reachable in Hreach.
  split; [done|]. split; [by destruct Hreach|].
  split; [by eapply errChan_bounded|].
  intros i e Hi. destruct (errChan_room _ _ _ _ _ _ Hreach Hi) as [Hroom Hp].
  split; [done|]. split; [|done].
  unfold stepGoroutine. rewrite Hi. simpl. by rewrite decide_True.
Qed.

End UpdateClaims.

Section UpdateExamples.

Import collector.

Lemma update_reports_one_error_witness :
  ∃ s : @ustate sample.metric,
    update sample.find sample.push sample.range sample.propsCollector
      [] ["A"; "B"; "C"] s ∧
    pc s = PReturn (Some sample.exitStatus1) ∧
    (∃ pool, pool ∈ ["A"; "B"; "C"] ∧
       (updatePoolMetrics sample.find sample.push sample.range sample.propsCollector pool).2
       = Some sample.exitStatus1) ∧
    ("size", "1", ["A"]) ∈ ch s ∧ ("health", "ONLINE", ["A"]) ∈ ch s ∧
    ("size", "1", ["C"]) ∈ ch s ∧ ("health", "ONLINE", ["C"]) ∈ ch s.
Proof.
  assert (∃ s, exec (updateBody sample.find sample.push sample.range sample.propsCollector)
                 sample.schedule (initial [] ["A"; "B"; "C"]) = Some s ∧
               pc s = PReturn (Some sample.exitStatus1)) as (s & Hexec & Hpc).
  { eexists. split; [vm_compute; reflexivity | reflexivity]. }
  exists s. apply exec_reachable in Hexec.
  destruct (update_reports_one_error sample.find sample.push sample.range
              sample.propsCollector [] ["A"; "B"; "C"] s Hexec) as [_ H].
  destruct (H _ Hpc) as (_ & Herr & _ & Hch).
  split; [exact Hexec|]. split; [exact Hpc|]. split; [by apply Herr|].
  assert ("A" ∈ ["A"; "B"; "C"]) as HA by (apply list_elem_of_In; simpl; tauto).
  assert ("C" ∈ ["A"; "B"; "C"]) as HC by (apply list_elem_of_In; simpl; tauto).
  split; [apply (Hch "A" _ HA); apply list_elem_of_In; vm_compute; tauto|].
  split; [apply (Hch "A" _ HA); apply list_elem_of_In; vm_compute; tauto|].
  split; apply (Hch "C" _ HC); apply list_elem_of_In; vm_compute; tauto.
Defined.

Lemma errChan_never_blocks_witness :
  ∃ s : @ustate sample.metric,
    update sample.find sample.push sample.range sample.propsCollector
      [] ["A"; "B"; "C"] s ∧
    gs s !! 1 = Some (GReport sample.exitStatus1) ∧
    errCap s = 3 ∧
    length (errChan s) < errCap s ∧
    is_Some (stepGoroutine 1 s).
Proof.
  assert (∃ s, exec (updateBody sample.find sample.push sample.range sample.propsCollector)
                 [Main; Main; Go 1] (initial [] ["A"; "B"; "C"]) = Some s ∧
               gs s !! 1 = Some (GReport sample.exitStatus1)) as (s & Hexec & Hi).
  { eexists. split; [vm_compute; reflexivity | reflexivity]. }
  exists s. apply exec_reachable in Hexec.
  destruct (errChan_never_blocks sample.find sample.push sample.range
              sample.propsCollector [] ["A"; "B"; "C"] s Hexec) as (_ & Hcap & _ & H).
  destruct (H _ _ Hi) as (Hroom & Hstep & _).
  split; [exact Hexec|]. split; [exact Hi|]. split; [exact Hcap|].
  split; [exact Hroom | exact Hstep].
Defined.

End UpdateExamples.

(** * More about the line handler *)

Section LineHandlerMore.

Import zfs.

Implicit Types (p : poolPropertiesImpl) (pool k v : string) (line : list string).

(** X1.  [processLine] never indexes its line out of range: for every
    kind and every line, the empty one included, it returns. *)
Theorem processLine_never_panics p pool line :
  ∃ p' err, processLine p pool line = Some (p', err).
Proof.
  destruct (processLine_no_panic p pool line) as [[p' err] H]. eauto.
Qed.

(** X2.  When [processLine] returns an error it has not touched the map:
    there is no partial write, for any kind. *)
Theorem processLine_error_keeps_map p pool line p' e :
  processLine p pool line = Some (p', Some e) → p' = p.
Proof.
  unfold processLine. intros H.
  repeat (case_decide || simplify_option_eq); done.
Qed.

Lemma processLine_error_keeps_map_witness :
  ∃ p' e, processLine (mkProps PoolIostat {[ "opread" := "5" ]}) "tank" ["tank"; "1"; "2"]
          = Some (p', Some e) ∧
          p' = mkProps PoolIostat {[ "opread" := "5" ]}.
Proof.
  eexists _, _. split; [vm_compute; reflexivity|].
  apply (processLine_error_keeps_map (mkProps PoolIostat {[ "opread" := "5" ]}) "tank"
           ["tank"; "1"; "2"] _ ErrInvalidOutput).
  vm_compute. reflexivity.
Defined.

Lemma processLine_accepted p pool line p' :
  processLine p pool line = Some (p', None) →
  (kind p = PoolProps ∨ kind p = PoolIostat) ∧
  Z.of_nat (length line) = getFieldsPerRecord p ∧
  line !! 0 = Some pool.
Proof.
  intros H.
  assert (kind p = PoolProps ∨ kind p = PoolIostat) as Hk.
  { unfold processLine in H.
    destruct (decide (kind p = PoolProps)); [by left|].
    destruct (decide (kind p = PoolIostat)); [by right|]. done. }
  split; [done|].
  destruct (decide (Z.of_nat (length line) ≠ getFieldsPerRecord p ∨ line !! 0 ≠ Some pool))
    as [Hbad|Hok].
  - rewrite processLine_rejects in H by done. done.
  - split; apply dec_stable; intros ?; apply Hok; auto.
Qed.

(** X3.  Which lines are accepted: [processLine] returns [nil] exactly
    when the kind is one of the two supported ones, the line has as many
    fields as [getFieldsPerRecord] says, and its first field is the
    pool.  For an unrecognized kind no line is accepted, although
    [getFieldsPerRecord] answers 3. *)
Theorem processLine_accepts_iff p pool line :
  (∃ p', processLine p pool line = Some (p', None)) ↔
  (kind p = PoolProps ∨ kind p = PoolIostat) ∧
  Z.of_nat (length line) = getFieldsPerRecord p ∧
  line !! 0 = Some pool.
Proof.
  split.
  - intros [p' H]. by eapply processLine_accepted.
  - intros (Hk & Hlen & H0). unfold getFieldsPerRecord in Hlen.
    destruct (decide (kind p = PoolProps)) as [Hp|Hp].
    + destruct line as [|l0 [|l1 [|l2 [|]]]]; simplify_eq/=; try lia.
      eexists. by apply processLine_props.
    + destruct Hk as [?|Hi]; [done|]. rewrite decide_True in Hlen by done.
      destruct line as [|l0 [|l1 [|l2 [|l3 [|l4 [|l5 [|l6 [|]]]]]]]]; simplify_eq/=; try lia.
      eexists. by apply processLine_iostat.
Qed.

(** X4.  An accepted I/O statistics line sets [opread], [opwrite] and
    [bwwrite] to its fields 3, 4 and 6 and leaves every other key of the
    map as it was. *)
Theorem processLine_iostat_frame p pool line p' :
  kind p = PoolIostat →
  processLine p pool line = Some (p', None) →
  properties p' !! "opread" = line !! 3 ∧
  properties p' !! "opwrite" = line !! 4 ∧
  properties p' !! "bwwrite" = line !! 6 ∧
  ∀ k, k ≠ "opread" → k ≠ "opwrite" → k ≠ "bwwrite" →
       properties p' !! k = properties p !! k.
Proof.
  intros Hk H.
  destruct (processLine_accepted _ _ _ _ H) as (_ & Hlen & H0).
  rewrite getFieldsPerRecord_iostat in Hlen by done.
  destruct line as [|l0 [|l1 [|l2 [|l3 [|l4 [|l5 [|l6 [|]]]]]]]]; simplify_eq/=; try lia.
  rewrite processLine_iostat in H by done. simplify_eq/=.
  repeat split.
  - by rewrite !lookup_insert_ne, lookup_insert_eq by done.
  - by rewrite !lookup_insert_ne, lookup_insert_eq by done.
  - by rewrite lookup_insert_eq.
  - intros k ? ? ?. by rewrite !lookup_insert_ne by done.
Qed.

Lemma processLine_iostat_frame_witness :
  ∃ p', processLine (mkProps PoolIostat {[ "bwread" := "7" ]}) "tank"
          ["tank"; "-"; "-"; "1"; "2"; "3"; "4"] = Some (p', None) ∧
        properties p' !! "opread" = Some "1" ∧
        properties p' !! "opwrite" = Some "2" ∧
        properties p' !! "bwwrite" = Some "4" ∧
        properties p' !! "bwread" = Some "7".
Proof.
  eexists. split; [vm_compute; reflexivity|].
  destruct (processLine_iostat_frame (mkProps PoolIostat {[ "bwread" := "7" ]}) "tank"
              ["tank"; "-"; "-"; "1"; "2"; "3"; "4"] _ eq_refl eq_refl)
    as (H1 & H2 & H3 & H4).
  split; [exact H1|]. split; [exact H2|]. split; [exact H3|].
  rewrite H4 by discriminate. reflexivity.
Defined.

Lemma assign_assign p k v1 v2 : assign (assign p k v1) k v2 = assign p k v2.
Proof. unfold assign. simpl. by rewrite insert_insert_eq. Qed.

Lemma assign_commute p k1 k2 v1 v2 :
  k1 ≠ k2 → assign (assign p k1 v1) k2 v2 = assign (assign p k2 v2) k1 v1.
Proof. intros Hne. unfold assign. simpl. by rewrite insert_insert_ne. Qed.

(** X5.  Handing an accepted line to the handler a second time changes
    nothing: the handler is accepted again and the map is the same. *)
Theorem processLine_idempotent p pool line p1 :
  processLine p pool line = Some (p1, None) →
  processLine p1 pool line = Some (p1, None).
Proof.
  intros H. destruct (processLine_accepted _ _ _ _ H) as (Hk & Hlen & H0).
  unfold getFieldsPerRecord in Hlen.
  destruct (decide (kind p = PoolProps)) as [Hp|Hp].
  - destruct line as [|l0 [|l1 [|l2 [|]]]]; simplify_eq/=; try lia.
    rewrite processLine_props in H by done. simplify_eq.
    rewrite processLine_props by done. by rewrite assign_assign.
  - destruct Hk as [?|Hi]; [done|]. rewrite decide_True in Hlen by done.
    destruct line as [|l0 [|l1 [|l2 [|l3 [|l4 [|l5 [|l6 [|]]]]]]]]; simplify_eq/=; try lia.
    rewrite processLine_iostat in H by done. simplify_eq.
    rewrite processLine_iostat by done. do 2 f_equal.
    unfold assign. simpl. f_equal. apply map_eq. intros k'.
    rewrite !lookup_insert. repeat case_decide; congruence.
Qed.

Lemma processLine_idempotent_witness :
  ∃ p1, processLine (newPoolPropertiesImpl PoolIostat) "tank"
          ["tank"; "-"; "-"; "1"; "2"; "3"; "4"] = Some (p1, None) ∧
        processLine p1 "tank" ["tank"; "-"; "-"; "1"; "2"; "3"; "4"] = Some (p1, None).
Proof.
  eexists. split; [vm_compute; reflexivity|].
  apply (processLine_idempotent (newPoolPropertiesImpl PoolIostat)).
  vm_compute. reflexivity.
Defined.

(** X6.  Two properties lines for different keys can be handled in
    either order: the handler ends up the same. *)
Theorem processLines_commute p pool k1 v1 k2 v2 :
  kind p = PoolProps → k1 ≠ k2 →
  processLines p pool [[pool; k1; v1]; [pool; k2; v2]]
  = processLines p pool [[pool; k2; v2]; [pool; k1; v1]].
Proof.
  intros Hk Hne. simpl.
  rewrite !processLine_props by done. simpl.
  rewrite !processLine_props by done. simpl.
  by rewrite assign_commute.
Qed.

Lemma processLines_commute_witness :
  processLines (newPoolPropertiesImpl PoolProps) "tank"
    [["tank"; "size"; "1"]; ["tank"; "free"; "2"]]
  = processLines (newPoolPropertiesImpl PoolProps) "tank"
    [["tank"; "free"; "2"]; ["tank"; "size"; "1"]].
Proof.
  apply (processLines_commute (newPoolPropertiesImpl PoolProps) "tank" "size" "1" "free" "2").
  - reflexivity.
  - discriminate.
Defined.

Lemma lineEntry_wellFormed pool line :
  wellFormed pool line → ∃ k v, line = [pool; k; v] ∧ lineEntry line = Some (k, v).
Proof.
  intros (k & v & ->)%wellFormed_inv. by exists k, v.
Qed.

(** X7.  The map after a run of well-formed properties lines: the
    entries of the lines, a later line winning over an earlier one with
    the same key, on top of what the map held before. *)
Theorem processLines_closed_form p pool lines :
  kind p = PoolProps → Forall (wellFormed pool) lines →
  ∃ p', processLines p pool lines = Some (p', None) ∧
        properties p' = list_to_map (reverse (omap lineEntry lines)) ∪ properties p ∧
        dom (properties p')
        = list_to_set (omap lineEntry lines).*1 ∪ dom (properties p).
Proof.
  intros Hk Hall. revert p Hk.
  induction Hall as [|l ls Hl _ IH]; intros p Hk; simpl.
  - exists p. split; [done|]. split.
    + by rewrite (left_id_L ∅ (∪)).
    + by rewrite (left_id_L ∅ (∪)).
  - destruct (lineEntry_wellFormed _ _ Hl) as (k & v & -> & He).
    rewrite processLine_props by done. simpl.
    destruct (IH (assign p k v) Hk) as (p' & Hp' & Hmap & Hdom).
    exists p'. split; [done|]. unfold lineEntry in *. simpl in *. split.
    + rewrite Hmap, reverse_cons, list_to_map_app. simpl.
      rewrite <- (assoc_L (∪)). f_equal.
      by rewrite insert_union_singleton_l, insert_empty.
    + rewrite Hdom, dom_insert_L. simpl.
      apply set_eq. intros x. rewrite !elem_of_union. tauto.
Qed.

Lemma processLines_closed_form_witness :
  ∃ p', processLines (mkProps PoolProps {[ "guid" := "9" ]}) "tank"
          [["tank"; "size"; "1"]; ["tank"; "free"; "2"]; ["tank"; "size"; "3"]]
        = Some (p', None) ∧
        properties p' = list_to_map [("size", "3"); ("free", "2"); ("guid", "9")].
Proof.
  destruct (processLines_closed_form (mkProps PoolProps {[ "guid" := "9" ]}) "tank"
              [["tank"; "size"; "1"]; ["tank"; "free"; "2"]; ["tank"; "size"; "3"]])
    as (p' & H1 & H2 & _).
  - reflexivity.
  - repeat constructor.
  - exists p'. split; [exact H1|]. rewrite H2. vm_compute. reflexivity.
Defined.

End LineHandlerMore.

(** * More about the collector *)

Section Describing.

Import collector.

Context {property descriptor : Type}.
Variable find : string → property * option error.
Variable desc : property → descriptor.

(** X10.  [describe] visits the configured properties in order: it sends
    the descriptor of each one that the registry knows, logs a warning for
    each one that it does not know and skips it, and does exactly one of
    the two for every property. *)
Theorem describe_sends_known (c : poolCollector) :
  omap (fun a => match a with SendDesc d => Some d | WarnDesc _ _ => None end)
       (describe find desc c)
  = (fun k => desc (find k).1) <$> filter (fun k => (find k).2 = None) (props c) ∧
  omap (fun a => match a with SendDesc _ => None | WarnDesc k e => Some (k, e) end)
       (describe find desc c)
  = omap (fun k => (fun e => (k, e)) <$> (find k).2) (props c) ∧
  length (describe find desc c) = length (props c).
Proof.
  unfold describe. induction (props c) as [|k ks (IH1 & IH2 & IH3)]; [done|].
  simpl. destruct (find k) as [prop [e|]] eqn:Hf; simpl.
  - rewrite filter_cons_False by (by rewrite Hf).
    split; [exact IH1|]. split; [f_equal; exact IH2 | f_equal; exact IH3].
  - rewrite filter_cons_True by (by rewrite Hf). simpl. rewrite Hf. simpl.
    split; [f_equal; exact IH1|]. split; [exact IH2 | f_equal; exact IH3].
Qed.

End Describing.

Section UpdatePoolMetricsMore.

Import zfs collector.

Context {property metric : Type}.
Variable find : string → property * option error.
Variable push : property → string → list string → list metric * option error.
Variable range : gmap string string → list (string * string).

Lemma pushProperties_ok pool kvs :
  Forall (pushOk find push pool) kvs →
  pushProperties find push pool kvs = (kvs ≫= entryActions find push pool, None).
Proof.
  induction 1 as [|[k v] kvs Hkv _ IH]; [done|].
  simpl. unfold pushOk, entryActions in *. simpl in *.
  destruct (find k) as [prop ferr]. simpl in *.
  destruct (push prop v [pool]) as [ms perr]. simpl in *. subst perr.
  rewrite IH. by rewrite <- app_assoc.
Qed.

Lemma pushProperties_fails pool before k v after pe :
  Forall (pushOk find push pool) before →
  (push (find k).1 v [pool]).2 = Some pe →
  pushProperties find push pool (before ++ (k, v) :: after)
  = ((before ≫= entryActions find push pool) ++ entryActions find push pool (k, v), Some pe).
Proof.
  intros Hb Hp.
  rewrite (pushProperties_app find push pool before _ _ (pushProperties_ok pool before Hb)).
  simpl. unfold entryActions. simpl.
  destruct (find k) as [prop ferr]. simpl in *.
  destruct (push prop v [pool]) as [ms perr]. simpl in *. by subst perr.
Qed.

(** The entries split at the first push that fails, if there is one. *)
Lemma pushOk_split pool kvs :
  Forall (pushOk find push pool) kvs ∨
  ∃ before k v after pe,
    kvs = before ++ (k, v) :: after ∧ Forall (pushOk find push pool) before ∧
    (push (find k).1 v [pool]).2 = Some pe.
Proof.
  induction kvs as [|[k v] kvs IH]; [by left|].
  destruct ((push (find k).1 v [pool]).2) as [pe|] eqn:Hp.
  - right. by exists [], k, v, kvs, pe.
  - destruct IH as [IH|(before & k' & v' & after & pe & -> & Hb & Hp')].
    + left. by constructor.
    + right. exists ((k, v) :: before), k', v', after, pe.
      split; [done|]. split; [by constructor|done].
Qed.

Lemma emitted_app (a b : list (@action metric)) :
  emitted (a ++ b) = emitted a ++ emitted b.
Proof. unfold emitted. apply omap_app. Qed.

Lemma warned_app (a b : list (@action metric)) :
  warned (a ++ b) = warned a ++ warned b.
Proof. unfold warned. apply omap_app. Qed.

Lemma emitted_Emit (ms : list metric) : emitted (Emit <$> ms) = ms.
Proof. induction ms as [|m ms IH]; [done|]. simpl. by f_equal. Qed.

Lemma warned_Emit (ms : list metric) : warned (Emit <$> ms) = [].
Proof. by induction ms. Qed.

Lemma entryActions_emitted pool kv :
  emitted (entryActions find push pool kv) = (push (find kv.1).1 kv.2 [pool]).1.
Proof.
  unfold entryActions. rewrite emitted_app, emitted_Emit.
  by destruct ((find kv.1).2).
Qed.

Lemma entryActions_warned pool kv :
  warned (entryActions find push pool kv)
  = option_list ((fun e => (kv.1, e)) <$> (find kv.1).2).
Proof.
  unfold entryActions. rewrite warned_app, warned_Emit, app_nil_r.
  by destruct ((find kv.1).2).
Qed.

(** X11.  [updatePoolMetrics] returns [nil] exactly when [Properties]
    returned no error and the push of every entry of the map succeeded:
    a failed lookup alone never makes it fail. *)
Theorem updatePoolMetrics_nil_iff (c : poolCollector) (pool : string) :
  (updatePoolMetrics find push range c pool).2 = None ↔
  (client c pool (collector.kind c) (props c)).2 = None ∧
  Forall (fun kv => (push (find kv.1).1 kv.2 [pool]).2 = None)
         (range (client c pool (collector.kind c) (props c)).1).
Proof.
  unfold updatePoolMetrics.
  destruct (client c pool (collector.kind c) (props c)) as [m [e|]]; simpl.
  - split; [done|]. by intros [? _].
  - destruct (pushOk_split pool (range m))
      as [Hok|(before & k & v & after & pe & Hr & Hb & Hp)].
    + rewrite pushProperties_ok by done. done.
    + rewrite Hr, (pushProperties_fails _ _ _ _ _ _ Hb Hp). simpl.
      split; [done|]. intros [_ Hall].
      apply Forall_app in Hall as [_ Hall]. apply Forall_cons in Hall as [Hkv _].
      simpl in Hkv. congruence.
Qed.

(** X12.  The first push that fails ends the resource: its error is
    returned, what it sent before failing is sent, and the entries after
    it are not visited, so the outcome does not depend on them. *)
Theorem updatePoolMetrics_stops_at_failed_push
    (c : poolCollector) (pool : string) m before k v after pe :
  client c pool (collector.kind c) (props c) = (m, None) →
  range m = before ++ (k, v) :: after →
  (pushProperties find push pool before).2 = None →
  (push (find k).1 v [pool]).2 = Some pe →
  updatePoolMetrics find push range c pool
  = ((pushProperties find push pool before).1 ++ (pushProperties find push pool [(k, v)]).1,
     Some pe).
Proof.
  intros Hc Hr Hb Hp. unfold updatePoolMetrics. rewrite Hc, Hr.
  destruct (pushProperties find push pool before) as [acts r] eqn:Hbefore.
  simpl in Hb. subst r.
  rewrite (pushProperties_app find push pool before _ acts Hbefore). simpl.
  destruct (find k) as [prop ferr]. simpl in Hp.
  destruct (push prop v [pool]) as [ms perr]. simpl in Hp. by subst perr.
Qed.

(** X13.  An error returned by [updatePoolMetrics] is the error of
    [Properties] or the error of the push of one of the entries of the
    map; the error of a lookup is never returned. *)
Theorem updatePoolMetrics_error_origin (c : poolCollector) (pool : string) e :
  (updatePoolMetrics find push range c pool).2 = Some e →
  (client c pool (collector.kind c) (props c)).2 = Some e ∨
  ((client c pool (collector.kind c) (props c)).2 = None ∧
   ∃ k v, (k, v) ∈ range (client c pool (collector.kind c) (props c)).1 ∧
          (push (find k).1 v [pool]).2 = Some e).
Proof.
  unfold updatePoolMetrics.
  destruct (client c pool (collector.kind c) (props c)) as [m [e'|]]; simpl.
  - intros ?. by left.
  - intros H. right. split; [done|].
    destruct (pushOk_split pool (range m))
      as [Hok|(before & k & v & after & pe & Hr & Hb & Hp)].
    + by rewrite pushProperties_ok in H.
    + rewrite Hr, (pushProperties_fails _ _ _ _ _ _ Hb Hp) in H. simpl in H.
      simplify_eq. exists k, v. split; [|done].
      rewrite Hr, elem_of_app, elem_of_cons. auto.
Qed.

(** X14.  When every push succeeds, the metrics sent are those of the
    entries of the map in the order of the iteration, and the warnings
    logged are one for each entry whose lookup failed, in the same
    order. *)
Theorem updatePoolMetrics_success_trace (c : poolCollector) (pool : string) m :
  client c pool (collector.kind c) (props c) = (m, None) →
  Forall (fun kv => (push (find kv.1).1 kv.2 [pool]).2 = None) (range m) →
  ∃ acts,
    updatePoolMetrics find push range c pool = (acts, None) ∧
    emitted acts = range m ≫= (fun kv => (push (find kv.1).1 kv.2 [pool]).1) ∧
    warned acts = omap (fun kv => (fun e => (kv.1, e)) <$> (find kv.1).2) (range m).
Proof.
  intros Hc Hok. unfold updatePoolMetrics. rewrite Hc.
  rewrite pushProperties_ok by done.
  eexists. split; [done|]. clear Hok Hc.
  induction (range m) as [|kv kvs [IH1 IH2]]; [done|].
  rewrite bind_cons, emitted_app, warned_app, IH1, IH2.
  rewrite entryActions_emitted, entryActions_warned.
  split; [done|]. simpl. by destruct ((find kv.1).2).
Qed.

(** X15.  A collector that [newPoolCollector] has built keeps the kind,
    the client and the properties it was given, and its kind is one that
    the line handler knows: for a handler of that kind the only error of
    [processLine] is [ErrInvalidOutput], never "unknown pool type". *)
Theorem newPoolCollector_kind_known (k : PoolKind) (cl : Client) (ps : list string) c :
  newPoolCollector k cl ps = (Some c, None) →
  c = mkCollector k cl ps ∧
  ∀ p pool line p' e,
    zfs.kind p = collector.kind c →
    processLine p pool line = Some (p', Some e) → e = ErrInvalidOutput.
Proof.
  unfold newPoolCollector. intros H.
  destruct (decide (k = PoolProps ∨ k = PoolIostat)) as [Hk|]; [|done].
  simplify_eq. split; [done|].
  intros p pool line p' e Hp. simpl in Hp. apply processLine_error. by rewrite Hp.
Qed.

End UpdatePoolMetricsMore.

Section UpdatePoolMetricsExamples.

Import zfs collector.

Lemma updatePoolMetrics_stops_at_failed_push_witness :
  updatePoolMetrics sample.find sample.pushNonEmpty sample.range sample.emptyFreeCollector "tank"
  = ([Emit ("size", "1", ["tank"])], Some sample.errEmpty).
Proof.
  apply (updatePoolMetrics_stops_at_failed_push sample.find sample.pushNonEmpty sample.range
           sample.emptyFreeCollector "tank"
           (<[ "size" := "1" ]> (<[ "free" := "" ]> {[ "health" := "ONLINE" ]}))
           [("size", "1")] "free" "" [("health", "ONLINE")] sample.errEmpty).
  - reflexivity.
  - vm_compute. reflexivity.
  - vm_compute. reflexivity.
  - vm_compute. reflexivity.
Defined.

Lemma updatePoolMetrics_error_origin_witness :
  (client sample.emptyFreeCollector "tank" (collector.kind sample.emptyFreeCollector)
     (props sample.emptyFreeCollector)).2 = Some sample.errEmpty ∨
  ((client sample.emptyFreeCollector "tank" (collector.kind sample.emptyFreeCollector)
      (props sample.emptyFreeCollector)).2 = None ∧
   ∃ k v,
     (k, v) ∈ sample.range
       (client sample.emptyFreeCollector "tank" (collector.kind sample.emptyFreeCollector)
          (props sample.emptyFreeCollector)).1 ∧
     (sample.pushNonEmpty (sample.find k).1 v ["tank"]).2 = Some sample.errEmpty).
Proof.
  apply (updatePoolMetrics_error_origin sample.find sample.pushNonEmpty sample.range
           sample.emptyFreeCollector "tank" sample.errEmpty).
  vm_compute. reflexivity.
Defined.

Lemma updatePoolMetrics_success_trace_witness :
  ∃ acts,
    updatePoolMetrics sample.find sample.push sample.range sample.guidCollector "tank"
    = (acts, None) ∧
    emitted acts = [("unsupported_guid", "123", ["tank"])] ∧
    warned acts = [("guid", sample.errUnsupported)].
Proof.
  destruct (updatePoolMetrics_success_trace sample.find sample.push sample.range
              sample.guidCollector "tank" {[ "guid" := "123" ]}) as (acts & H1 & H2 & H3).
  - reflexivity.
  - assert (sample.range {[ "guid" := "123" ]} = [("guid", "123")]) as ->
      by (vm_compute; reflexivity).
    repeat constructor.
  - exists acts. split; [exact H1|]. split.
    + rewrite H2. vm_compute. reflexivity.
    + rewrite H3. vm_compute. reflexivity.
Defined.

Lemma newPoolCollector_kind_known_witness :
  ∃ e, processLine (newPoolPropertiesImpl PoolIostat) "tank" ["tank"; "1"]
       = Some (newPoolPropertiesImpl PoolIostat, Some e) ∧
       e = ErrInvalidOutput.
Proof.
  exists ErrInvalidOutput. split; [vm_compute; reflexivity|].
  destruct (newPoolCollector_kind_known PoolIostat (zfsClient sample.sys) []
              (mkCollector PoolIostat (zfsClient sample.sys) [])) as [_ H];
    [reflexivity|].
  apply (H (newPoolPropertiesImpl PoolIostat) "tank" ["tank"; "1"]
           (newPoolPropertiesImpl PoolIostat) ErrInvalidOutput);
    [reflexivity | vm_compute; reflexivity].
Defined.

End UpdatePoolMetricsExamples.

(** * More about the pass over the pools *)

Section UpdateOrder.

Import collector.

Context {metric : Type}.
Variable body : nat → string → list (@action metric) * option error.
Variable ch0 : list metric.
Variable pools : list string.

Abbreviation ustate := (@ustate metric).
Abbreviation goroutine := (@goroutine metric).
Abbreviation orderInvariant := (orderInvariant body ch0 pools).

Implicit Types (s : ustate) (g : goroutine).

Lemma drop_cons_inv {A} (l : list A) n x r :
  drop n l = x :: r → l !! n = Some x ∧ drop (S n) l = r.
Proof.
  intros H. split.
  - rewrite <- (Nat.add_0_r n), <- lookup_drop, H. done.
  - rewrite <- (Nat.add_1_l n), Nat.add_comm, <- drop_drop, H. done.
Qed.

Lemma order_initial : orderInvariant (initial ch0 pools).
Proof.
  split; simpl; [done|lia|].
  exists []. split; [by rewrite app_nil_r|]. intros i g Hi. done.
Qed.

Lemma order_stepUpdate s s' :
  orderInvariant s → stepUpdate body s = Some s' → orderInvariant s'.
Proof.
  intros [Hsp Hlen (sent & Hch & Hdone)] Hstep.
  destruct s as [p l c lg ec cap w]. unfold stepUpdate in Hstep.
  unfold unspawned in *. simpl in *.
  destruct p as [[|pool rest]| |r]; simpl in *.
  - simplify_eq. split; simpl; eauto.
  - destruct (body (length l) pool) as [todo r] eqn:Hb. simplify_eq.
    apply drop_cons_inv in Hsp as [Hpool Hrest].
    pose proof (lookup_lt_Some _ _ _ Hpool) as Hlt.
    split; unfold unspawned; simpl.
    + by rewrite length_app, Nat.add_1_r.
    + rewrite length_app. simpl. lia.
    + exists sent. split; [done|]. intros i g Hi.
      destruct (decide (i < length l)) as [Hi'|Hi'].
      * rewrite lookup_app_l in Hi by done. by apply Hdone.
      * rewrite lookup_app_r in Hi by lia.
        destruct (i - length l) as [|n] eqn:Hn; simplify_eq/=.
        assert (i = length l) as -> by lia.
        exists pool, [], []. rewrite Hb. simpl.
        split; [done|]. split; [done|]. split; [apply sublist_nil_l|].
        split; [done|apply sublist_nil_l].
  - case_decide; [|done]. destruct ec; simplify_eq; split; simpl; eauto.
  - done.
Qed.

Lemma order_update_goroutine p l sent lg ec cap w i g g' sent' lg' ec' w' :
  orderInvariant (mkState p l (ch0 ++ sent) lg ec cap w) →
  l !! i = Some g →
  (∀ x, x `sublist_of` sent → x `sublist_of` sent') →
  (∀ x, x `sublist_of` lg → x `sublist_of` lg') →
  (∀ pool sentI loggedI,
     sentI ++ pendingMetrics g = emitted (body i pool).1 →
     sentI `sublist_of` sent →
     loggedI ++ pendingWarnings g = warned (body i pool).1 →
     loggedI `sublist_of` lg →
     ∃ sentI' loggedI',
       sentI' ++ pendingMetrics g' = emitted (body i pool).1 ∧
       sentI' `sublist_of` sent' ∧
       loggedI' ++ pendingWarnings g' = warned (body i pool).1 ∧
       loggedI' `sublist_of` lg') →
  orderInvariant (mkState p (<[i := g']> l) (ch0 ++ sent') lg' ec' cap w').
Proof.
  intros [Hsp Hlen (sent0 & Hch & Hdone)] Hi Hsent Hlg Hg. simpl in *.
  apply app_inv_head in Hch as <-.
  split; unfold unspawned in *; simpl; rewrite ?length_insert; [done|done|].
  exists sent'. split; [done|]. intros j gj Hj.
  destruct (decide (j = i)) as [->|Hne].
  - rewrite list_lookup_insert_eq in Hj by (by eapply lookup_lt_Some).
    simplify_eq.
    destruct (Hdone i g Hi) as (pool & sentI & loggedI & Hp & H1 & H2 & H3 & H4).
    destruct (Hg pool sentI loggedI H1 H2 H3 H4) as (sentI' & loggedI' & ? & ? & ? & ?).
    by exists pool, sentI', loggedI'.
  - rewrite list_lookup_insert_ne in Hj by done.
    destruct (Hdone j gj Hj) as (pool & sentI & loggedI & Hp & H1 & H2 & H3 & H4).
    exists pool, sentI, loggedI. auto 10.
Qed.

Lemma order_stepGoroutine i s s' :
  orderInvariant s → stepGoroutine i s = Some s' → orderInvariant s'.
Proof.
  intros Hinv Hstep.
  destruct s as [p l c lg ec cap w].
  destruct (ord_done _ _ _ _ Hinv) as (sent & Hch & _). simpl in Hch. subst c.
  unfold stepGoroutine, setGoroutine in Hstep. simpl in Hstep.
  destruct (l !! i) as [g|] eqn:Hi; [|done]. simpl in Hstep.
  destruct g as [[|[m|k e] todo] [e'|]|e| |]; try case_decide; simplify_eq;
    rewrite <- ?app_assoc;
    (eapply order_update_goroutine; [exact Hinv|exact Hi|..]);
    try (intros x Hx; first [exact Hx | by apply sublist_inserts_r]);
    intros pool sentI loggedI H1 H2 H3 H4; simpl in *.
  all: try by (exists sentI, loggedI).
  all: try by (exists (sentI ++ [m]), loggedI; rewrite <- app_assoc;
               split; [done|]; split; [by apply sublist_app|done]).
  all: by (exists sentI, (loggedI ++ [(k, e)]); rewrite <- app_assoc;
           split; [done|]; split; [done|]; split; [done|by apply sublist_app]).
Qed.

Lemma order_reachable s : reachable body ch0 pools s → orderInvariant s.
Proof.
  unfold reachable. intros H.
  apply (rtc_ind_r (R := step body) (λ s, orderInvariant s) (initial ch0 pools)); [..|done].
  - apply order_initial.
  - intros s1 s2 _ [[|i] Hc] IH; simpl in Hc.
    + by eapply order_stepUpdate.
    + by eapply order_stepGoroutine.
Qed.

End UpdateOrder.

Section UpdateRunsProofs.

Import collector.

Context {metric : Type}.
Variable body : nat → string → list (@action metric) * option error.
Variable ch0 : list metric.
Variable pools : list string.

Abbreviation ustate := (@ustate metric).
Abbreviation goroutine := (@goroutine metric).

Implicit Types (s : ustate) (g : goroutine).

Lemma all_exited (l : list goroutine) :
  sum_list_with live l = 0 → Forall (fun g => g = GExit) l.
Proof.
  intros Hz. apply Forall_lookup. intros i g Hi. by eapply live_none.
Qed.

(** What holds when [update] has returned. *)
Lemma returned_state s r :
  invariant body ch0 pools s → orderInvariant body ch0 pools s → pc s = PReturn r →
  wg s = 0%Z ∧ length (gs s) = length pools ∧ Forall (fun g => g = GExit) (gs s) ∧
  option_list r ++ errChan s ≡ₚ allErrors body 0 pools.
Proof.
  intros [_ Hwg _ Herr] [Hsp Hlen _] Hpc. rewrite Hpc in Herr.
  destruct Herr as (Hz & es & Hes & -> & Hec).
  unfold unspawned in Hsp. rewrite Hpc in Hsp. apply drop_nil_inv in Hsp.
  split; [done|]. split; [lia|]. split; [apply all_exited; lia|].
  rewrite Hec, <- Hes. by destruct es.
Qed.

Lemma live_le (l : list goroutine) : sum_list_with live l ≤ length l.
Proof. induction l as [|g l IH]; simpl; [lia|]. destruct g; simpl; lia. Qed.

(** The wait group: its counter is the number of goroutines that have not
    called [wg.Done()]. *)
Lemma waitgroup_counts s :
  invariant body ch0 pools s → orderInvariant body ch0 pools s →
  (0 ≤ wg s ≤ Z.of_nat (length pools))%Z ∧
  (∀ i, gs s !! i = Some GDone → (1 ≤ wg s)%Z) ∧
  (wg s = 0%Z → Forall (fun g => g = GExit) (gs s)).
Proof.
  intros [_ Hwg _ _] [_ Hlen _].
  pose proof (live_le (gs s)) as Hle.
  split; [lia|]. split.
  - intros i Hi. apply list_elem_of_lookup_2 in Hi.
    pose proof (sum_list_with_in _ live _ Hi) as H1. simpl in H1. lia.
  - intros Hz. apply all_exited. lia.
Qed.

Lemma exec_bound sched s s' :
  exec body sched s = Some s' → length sched + stepsLeft body s' ≤ stepsLeft body s.
Proof.
  revert s. induction sched as [|c sched IH]; intros s H; simpl in H.
  - simplify_eq. simpl. lia.
  - destruct (stepChoice body c s) as [s1|] eqn:Hc; [|done]. simpl in H.
    apply IH in H.
    assert (step body s s1) as Hs by (by exists c).
    apply step_decreases in Hs. simpl. lia.
Qed.

Lemma step_grows s s' :
  step body s s' →
  ch s `prefix_of` ch s' ∧ logged s `prefix_of` logged s'.
Proof.
  intros [[|i] Hc]; simpl in Hc.
  - unfold stepUpdate in Hc. destruct s as [p l c lg ec cap w]. simpl in *.
    destruct p as [[|pool rest]| |r]; simpl in *.
    + by simplify_eq.
    + destruct (body (length l) pool). by simplify_eq.
    + case_decide; [|done]. destruct ec; by simplify_eq.
    + done.
  - unfold stepGoroutine in Hc. destruct s as [p l c lg ec cap w]. simpl in *.
    destruct (l !! i) as [g|]; [|done]. simpl in Hc.
    destruct g as [[|[m|k e] todo] [e'|]|e| |]; try case_decide; simplify_eq; simpl;
      split; first [done | by apply prefix_app_r].
Qed.

Lemma steps_grow s s' :
  rtc (step body) s s' →
  ch s `prefix_of` ch s' ∧ logged s `prefix_of` logged s'.
Proof.
  induction 1 as [|s1 s2 s3 Hs _ [IH1 IH2]]; [done|].
  destruct (step_grows _ _ Hs) as [H1 H2].
  split; by etrans.
Qed.

Lemma willReturn_step e s s' : willReturn e s → step body s s' → willReturn e s'.
Proof.
  unfold willReturn. intros H [[|i] Hc]; simpl in Hc.
  - unfold stepUpdate in Hc. destruct s as [p l c lg ec cap w]. simpl in *.
    destruct p as [[|pool rest]| |r]; simpl in *.
    + by simplify_eq.
    + destruct (body (length l) pool). by simplify_eq.
    + case_decide; [|done]. destruct ec; by simplify_eq.
    + done.
  - unfold stepGoroutine in Hc. destruct s as [p l c lg ec cap w]. simpl in *.
    destruct (l !! i) as [g|]; [|done]. simpl in Hc.
    destruct g as [[|[m|k e1] todo] [e'|]|e1| |]; try case_decide; simplify_eq; simpl;
      try done.
    destruct p; try done; destruct ec; simplify_eq/=; done.
Qed.

Lemma willReturn_steps e s s' : willReturn e s → rtc (step body) s s' → willReturn e s'.
Proof.
  intros H Hs. induction Hs as [|s1 s2 s3 Hs _ IH]; [done|].
  apply IH. by eapply willReturn_step.
Qed.

Lemma insert_middle (l1 l2 : list goroutine) g g' :
  <[length l1 := g']> (l1 ++ g :: l2) = l1 ++ g' :: l2.
Proof. rewrite insert_app_r_alt by lia. by rewrite Nat.sub_diag. Qed.

Lemma step_middle p l1 g l2 c lg ec cap w s' :
  stepGoroutine (length l1) (mkState p (l1 ++ g :: l2) c lg ec cap w) = Some s' →
  step body (mkState p (l1 ++ g :: l2) c lg ec cap w) s'.
Proof. intros H. by exists (Go (length l1)). Qed.

(** The loop starts all the goroutines before any of them runs. *)
Lemma spawn_all rest l c lg ec cap w :
  rtc (step body) (mkState (PSpawn rest) l c lg ec cap w)
    (mkState PWait (l ++ spawnList body (length l) rest) c lg ec cap
       (w + Z.of_nat (length rest))).
Proof.
  revert l w. induction rest as [|pool rest IH]; intros l w.
  - apply rtc_once. exists Main. simpl. unfold stepUpdate. simpl.
    by rewrite app_nil_r, Z.add_0_r.
  - apply (rtc_l _ _
             (mkState (PSpawn rest)
                (l ++ [GCall (body (length l) pool).1 (body (length l) pool).2])
                c lg ec cap (w + 1)%Z)).
    + exists Main. simpl. unfold stepUpdate. simpl.
      by destruct (body (length l) pool).
    + specialize (IH (l ++ [GCall (body (length l) pool).1 (body (length l) pool).2])
                     (w + 1)%Z).
      rewrite length_app, Nat.add_1_r, <- app_assoc in IH. simpl in *.
      replace (w + Z.of_nat (S (length rest)))%Z
        with (w + 1 + Z.of_nat (length rest))%Z by lia.
      exact IH.
Qed.

Lemma spawnList_split i ps j pool :
  ps !! j = Some pool →
  ∃ l1 l2, spawnList body i ps
           = l1 ++ GCall (body (i + j) pool).1 (body (i + j) pool).2 :: l2.
Proof.
  revert i j. induction ps as [|pool' ps IH]; intros i j Hj; [done|].
  destruct j as [|j]; simplify_eq/=.
  - exists [], (spawnList body (S i) ps). by rewrite Nat.add_0_r.
  - destruct (IH (S i) j Hj) as (l1 & l2 & ->).
    exists (GCall (body i pool').1 (body i pool').2 :: l1), l2.
    by rewrite Nat.add_succ_r.
Qed.

(** A goroutine runs its call to the end while the others stand still. *)
Lemma run_call p l1 todo r l2 c lg ec cap w :
  rtc (step body) (mkState p (l1 ++ GCall todo r :: l2) c lg ec cap w)
    (mkState p (l1 ++ GCall [] r :: l2) (c ++ emitted todo) (lg ++ warned todo) ec cap w).
Proof.
  revert c lg. induction todo as [|[m|k e] todo IH]; intros c lg.
  - simpl. by rewrite !app_nil_r.
  - eapply rtc_l.
    + apply step_middle. unfold stepGoroutine, setGoroutine. simpl.
      rewrite list_lookup_middle by done. simpl. by rewrite insert_middle.
    + specialize (IH (c ++ [m]) lg). by rewrite <- app_assoc in IH.
  - eapply rtc_l.
    + apply step_middle. unfold stepGoroutine, setGoroutine. simpl.
      rewrite list_lookup_middle by done. simpl. by rewrite insert_middle.
    + specialize (IH c (lg ++ [(k, e)])). by rewrite <- app_assoc in IH.
Qed.

(** The error of any failed call can be the one that [update] returns. *)
Lemma any_failure i pool e :
  pools !! i = Some pool → (body i pool).2 = Some e →
  ∃ s, reachable body ch0 pools s ∧ pc s = PReturn (Some e).
Proof.
  intros Hi He.
  destruct (spawnList_split 0 pools i pool Hi) as (l1 & l2 & Hsplit).
  simpl in Hsplit. rewrite He in Hsplit.
  pose proof (lookup_lt_Some _ _ _ Hi) as Hlt.
  set (w := (0 + Z.of_nat (length pools))%Z).
  assert (reachable body ch0 pools
            (mkState PWait (l1 ++ GDone :: l2)
               (ch0 ++ emitted (body i pool).1) ([] ++ warned (body i pool).1)
               [e] (length pools) w)) as Hreach.
  { unfold reachable, initial.
    etrans; [apply spawn_all|]. simpl. rewrite Hsplit. fold w.
    etrans; [apply run_call|].
    eapply rtc_l.
    { apply step_middle. unfold stepGoroutine, setGoroutine. simpl.
      rewrite list_lookup_middle by done. simpl. by rewrite insert_middle. }
    apply rtc_once.
    apply step_middle. unfold stepGoroutine, setGoroutine. simpl.
    rewrite list_lookup_middle by done. simpl.
    rewrite decide_True by lia. by rewrite insert_middle. }
  destruct (completes body ch0 pools _ (invariant_reachable body ch0 pools _ Hreach))
    as (s' & r & Hsteps & Hr).
  exists s'. split; [unfold reachable in *; by etrans|].
  assert (willReturn e s') as Hw.
  { eapply willReturn_steps; [|done]. done. }
  unfold willReturn in Hw. rewrite Hr in Hw. by subst.
Qed.

End UpdateRunsProofs.

Section UpdateMore.

Import collector.

Context {property metric : Type}.
Variable find : string → property * option error.
Variable push : property → string → list string → list metric * option error.
Variable range : gmap string string → list (string * string).
Variable c : poolCollector.

Lemma allErrors_updateBody i pools :
  allErrors (updateBody find push range c) i pools
  = omap (fun pool => (updatePoolMetrics find push range c pool).2) pools.
Proof.
  revert i. induction pools as [|pool pools IH]; intros i; [done|].
  simpl. rewrite IH. unfold updateBody.
  by destruct ((updatePoolMetrics find push range c pool).2).
Qed.

Lemma spawnSteps_updateBody i pools :
  spawnSteps (updateBody find push range c) i pools
  = sum_list_with
      (fun pool => length (updatePoolMetrics find push range c pool).1 + 4) pools.
Proof.
  revert i. induction pools as [|pool pools IH]; intros i; [done|].
  simpl. by rewrite IH.
Qed.

(** X16.  No goroutine is left behind: when [update] has returned, it has
    started one goroutine per pool, every one of them has returned, and
    the counter of the wait group is back at zero. *)
Theorem update_leaves_no_goroutine (ch0 : list metric) (pools : list string) s r :
  update find push range c ch0 pools s →
  pc s = PReturn r →
  length (gs s) = length pools ∧ Forall (fun g => g = GExit) (gs s) ∧ wg s = 0%Z.
Proof.
  intros Hreach Hpc.
  destruct (returned_state _ _ _ _ _ (invariant_reachable _ _ _ _ Hreach)
              (order_reachable _ _ _ _ Hreach) Hpc) as (? & ? & ? & _).
  done.
Qed.

(** X17.  Every error of the pass is accounted for: the error that
    [update] returns, together with the errors it leaves unread in
    [errChan], are the errors of the failed calls, one for each. *)
Theorem update_errors_accounted (ch0 : list metric) (pools : list string) s r :
  update find push range c ch0 pools s →
  pc s = PReturn r →
  option_list r ++ errChan s
  ≡ₚ omap (fun pool => (updatePoolMetrics find push range c pool).2) pools.
Proof.
  intros Hreach Hpc.
  destruct (returned_state _ _ _ _ _ (invariant_reachable _ _ _ _ Hreach)
              (order_reachable _ _ _ _ Hreach) Hpc) as (_ & _ & _ & H).
  by rewrite H, allErrors_updateBody.
Qed.

(** X18.  The wait group is used safely: its counter is never negative
    and never above the number of pools, it is at least one whenever a
    goroutine is about to call [wg.Done()], and when it is zero every
    goroutine started so far has returned. *)
Theorem update_waitgroup_safe (ch0 : list metric) (pools : list string) s :
  update find push range c ch0 pools s →
  (0 ≤ wg s ≤ Z.of_nat (length pools))%Z ∧
  (∀ i, gs s !! i = Some GDone → (1 ≤ wg s)%Z) ∧
  (wg s = 0%Z → Forall (fun g => g = GExit) (gs s)).
Proof.
  intros Hreach.
  exact (waitgroup_counts _ _ _ _ (invariant_reachable _ _ _ _ Hreach)
           (order_reachable _ _ _ _ Hreach)).
Qed.

(** X19.  A pass is short: whatever the scheduler does, it cannot run
    more steps than two for the loop plus, for each pool, four and the
    number of metrics and warnings of its call. *)
Theorem update_run_bounded (ch0 : list metric) (pools : list string) sched s :
  exec (updateBody find push range c) sched (initial ch0 pools) = Some s →
  length sched
  ≤ 2 + sum_list_with
          (fun pool => length (updatePoolMetrics find push range c pool).1 + 4) pools.
Proof.
  intros H. apply exec_bound in H. unfold stepsLeft in H at 2. simpl in H.
  rewrite spawnSteps_updateBody in H. lia.
Qed.

(** X20.  With no pool at all, [update] starts no goroutine, returns
    [nil] and leaves the output channel as it found it. *)
Theorem update_no_pools (ch0 : list metric) s r :
  update find push range c ch0 [] s →
  pc s = PReturn r →
  r = None ∧ ch s = ch0 ∧ gs s = [] ∧ logged s = [].
Proof.
  intros Hreach Hpc.
  pose proof (invariant_reachable _ _ _ _ Hreach) as Hinv.
  pose proof (order_reachable _ _ _ _ Hreach) as Hord.
  destruct (returned_state _ _ _ _ _ Hinv Hord Hpc) as (_ & Hlen & _ & Herr).
  destruct (returned _ _ _ _ _ Hinv Hpc) as [_ (sent & Hch & Hsent)].
  simpl in *. apply Permutation_nil_r in Herr, Hsent. subst sent.
  apply app_eq_nil in Herr as [Hr _].
  assert (gs s = []) as Hgs by (by apply nil_length_inv).
  split; [by destruct r|]. split; [by rewrite Hch, app_nil_r|]. split; [done|].
  clear -Hreach. unfold update, reachable in Hreach.
  apply (rtc_ind_r (R := step (updateBody find push range c))
           (λ s, (logged s = [] ∧ gs s = []) ∧ unspawned s = []) (initial ch0 []));
    [done|..|done].
  intros s1 s2 _ [[|i] Hc] [[Hlg Hg] Hu]; simpl in Hc.
  - unfold stepUpdate in Hc. destruct s1 as [p l ch1 lg ec cap w].
    unfold unspawned in *. simpl in *. subst.
    destruct p as [[|pool rest]| |r]; simpl in *.
    + by simplify_eq.
    + done.
    + case_decide; [|done]. destruct ec; by simplify_eq.
    + done.
  - unfold stepGoroutine in Hc. by rewrite Hg in Hc.
Qed.

(** X21.  The metrics of a pool reach the output channel in the order in
    which its call sends them, whatever the other goroutines do in
    between; and likewise its warnings reach the log in order. *)
Theorem update_keeps_pool_order (ch0 : list metric) (pools : list string) s r :
  update find push range c ch0 pools s →
  pc s = PReturn r →
  ∃ sent,
    ch s = ch0 ++ sent ∧
    ∀ pool, pool ∈ pools →
      emitted (updatePoolMetrics find push range c pool).1 `sublist_of` sent ∧
      warned (updatePoolMetrics find push range c pool).1 `sublist_of` logged s.
Proof.
  intros Hreach Hpc.
  pose proof (invariant_reachable _ _ _ _ Hreach) as Hinv.
  pose proof (order_reachable _ _ _ _ Hreach) as Hord.
  destruct (returned_state _ _ _ _ _ Hinv Hord Hpc) as (_ & Hlen & Hexit & _).
  destruct Hord as [_ _ (sent & Hch & Hdone)].
  exists sent. split; [done|].
  intros pool [i Hi]%list_elem_of_lookup_1.
  destruct (lookup_lt_is_Some_2 (gs s) i) as [g Hg].
  { rewrite Hlen. by eapply lookup_lt_Some. }
  assert (g = GExit) as ->.
  { rewrite Forall_lookup in Hexit. by eapply Hexit. }
  destruct (Hdone i _ Hg) as (pool' & sentI & loggedI & Hp & H1 & H2 & H3 & H4).
  simplify_eq. simpl in *. rewrite app_nil_r in H1, H3.
  unfold updateBody in *. by subst.
Qed.

(** X22.  Which error [update] returns is up to the scheduler: for every
    pool whose call fails there is a run of [update] that returns the
    error of that pool. *)
Theorem update_any_failure_reported (ch0 : list metric) (pools : list string) pool e :
  pool ∈ pools →
  (updatePoolMetrics find push range c pool).2 = Some e →
  ∃ s, update find push range c ch0 pools s ∧ pc s = PReturn (Some e).
Proof.
  intros [i Hi]%list_elem_of_lookup_1 He.
  by apply (any_failure (updateBody find push range c) ch0 pools i pool e).
Qed.

(** X23.  The error that is returned is the first one that was put into
    [errChan]: once [errChan] holds an error, every way of finishing the
    pass returns the oldest one in it. *)
Theorem update_first_error_wins (s s' : @ustate metric) e r :
  (∀ r0, pc s ≠ PReturn r0) →
  head (errChan s) = Some e →
  rtc (step (updateBody find push range c)) s s' →
  pc s' = PReturn r →
  r = Some e.
Proof.
  intros Hpc Hhead Hsteps Hr.
  assert (willReturn e s) as Hw.
  { unfold willReturn. destruct (pc s) as [| |r0] eqn:E; [done|done|by destruct (Hpc r0)]. }
  apply (willReturn_steps _ _ _ _ Hw) in Hsteps.
  unfold willReturn in Hsteps. by rewrite Hr in Hsteps.
Qed.

(** X24.  Nothing is ever taken back: along every run the output channel
    and the log only grow at their end. *)
Theorem update_output_only_grows (s s' : @ustate metric) :
  rtc (step (updateBody find push range c)) s s' →
  ch s `prefix_of` ch s' ∧ logged s `prefix_of` logged s'.
Proof. apply steps_grow. Qed.

End UpdateMore.

Section UpdateMoreExamples.

Import collector.

Abbreviation sampleBody :=
  (updateBody sample.find sample.push sample.range sample.propsCollector).

(** The end of the run of the three pools. *)
Lemma sample_run_returns :
  ∃ s, exec sampleBody sample.schedule (initial [] ["A"; "B"; "C"]) = Some s ∧
       pc s = PReturn (Some sample.exitStatus1).
Proof. eexists. split; [vm_compute; reflexivity | reflexivity]. Defined.

Lemma update_leaves_no_goroutine_witness :
  ∃ s : @ustate sample.metric,
    update sample.find sample.push sample.range sample.propsCollector [] ["A"; "B"; "C"] s ∧
    length (gs s) = 3 ∧ Forall (fun g => g = GExit) (gs s) ∧ wg s = 0%Z.
Proof.
  destruct sample_run_returns as (s & Hexec & Hpc).
  exists s. apply exec_reachable in Hexec. split; [exact Hexec|].
  exact (update_leaves_no_goroutine sample.find sample.push sample.range
           sample.propsCollector [] ["A"; "B"; "C"] s _ Hexec Hpc).
Defined.

Lemma update_errors_accounted_witness :
  ∃ s : @ustate sample.metric,
    update sample.find sample.push sample.range sample.propsCollector [] ["A"; "B"; "C"] s ∧
    [sample.exitStatus1] ++ errChan s ≡ₚ [sample.exitStatus1].
Proof.
  destruct sample_run_returns as (s & Hexec & Hpc).
  exists s. apply exec_reachable in Hexec. split; [exact Hexec|].
  exact (update_errors_accounted sample.find sample.push sample.range
           sample.propsCollector [] ["A"; "B"; "C"] s _ Hexec Hpc).
Defined.

Lemma update_waitgroup_safe_witness :
  ∃ s : @ustate sample.metric,
    update sample.find sample.push sample.range sample.propsCollector [] ["A"; "B"; "C"] s ∧
    gs s !! 1 = Some GDone ∧ (1 ≤ wg s ≤ 3)%Z.
Proof.
  assert (∃ s, exec sampleBody [Main; Main; Go 1; Go 1] (initial [] ["A"; "B"; "C"]) = Some s ∧
               gs s !! 1 = Some GDone) as (s & Hexec & Hi).
  { eexists. split; [vm_compute; reflexivity | reflexivity]. }
  exists s. apply exec_reachable in Hexec. split; [exact Hexec|]. split; [exact Hi|].
  destruct (update_waitgroup_safe sample.find sample.push sample.range
              sample.propsCollector [] ["A"; "B"; "C"] s Hexec) as ([_ Hhi] & Hdone & _).
  split; [exact (Hdone 1 Hi) | exact Hhi].
Defined.

Lemma update_run_bounded_witness : length sample.schedule ≤ 18.
Proof.
  destruct sample_run_returns as (s & Hexec & _).
  exact (update_run_bounded sample.find sample.push sample.range sample.propsCollector
           [] ["A"; "B"; "C"] sample.schedule s Hexec).
Defined.

Lemma update_no_pools_witness :
  ∃ s : @ustate sample.metric,
    update sample.find sample.push sample.range sample.propsCollector
      [("size", "1", ["Z"])] [] s ∧
    pc s = PReturn None ∧ ch s = [("size", "1", ["Z"])] ∧ gs s = [] ∧ logged s = [].
Proof.
  assert (∃ s, exec sampleBody [Main; Main] (initial [("size", "1", ["Z"])] []) = Some s ∧
               pc s = PReturn None) as (s & Hexec & Hpc).
  { eexists. split; [vm_compute; reflexivity | reflexivity]. }
  exists s. apply exec_reachable in Hexec. split; [exact Hexec|]. split; [exact Hpc|].
  destruct (update_no_pools sample.find sample.push sample.range sample.propsCollector
              [("size", "1", ["Z"])] s None Hexec Hpc) as (_ & H).
  exact H.
Defined.

Lemma update_keeps_pool_order_witness :
  ∃ (s : @ustate sample.metric) sent,
    update sample.find sample.push sample.range sample.propsCollector [] ["A"; "B"; "C"] s ∧
    ch s = [] ++ sent ∧
    [("size", "1", ["A"]); ("health", "ONLINE", ["A"])] `sublist_of` sent.
Proof.
  destruct sample_run_returns as (s & Hexec & Hpc).
  apply exec_reachable in Hexec.
  destruct (update_keeps_pool_order sample.find sample.push sample.range
              sample.propsCollector [] ["A"; "B"; "C"] s _ Hexec Hpc) as (sent & Hch & H).
  exists s, sent. split; [exact Hexec|]. split; [exact Hch|].
  assert ("A" ∈ ["A"; "B"; "C"]) as HA by (apply list_elem_of_In; simpl; tauto).
  exact (proj1 (H "A" HA)).
Defined.

Lemma update_any_failure_reported_witness :
  ∃ s : @ustate sample.metric,
    update sample.find sample.push sample.range sample.propsCollector [] ["A"; "B"; "C"] s ∧
    pc s = PReturn (Some sample.exitStatus1).
Proof.
  apply (update_any_failure_reported sample.find sample.push sample.range
           sample.propsCollector [] ["A"; "B"; "C"] "B" sample.exitStatus1).
  - apply list_elem_of_In. simpl. tauto.
  - vm_compute. reflexivity.
Defined.

Lemma update_first_error_wins_witness :
  ∃ (s s' : @ustate sample.metric) r,
    exec sampleBody [Main; Main; Go 1; Go 1] (initial [] ["A"; "B"; "C"]) = Some s ∧
    errChan s = [sample.exitStatus1] ∧
    exec sampleBody [Main; Main; Go 0; Go 0; Go 0; Go 0; Go 1; Go 2; Go 2; Go 2; Go 2; Main] s
    = Some s' ∧
    pc s' = PReturn r ∧ r = Some sample.exitStatus1.
Proof.
  assert (∃ s, exec sampleBody [Main; Main; Go 1; Go 1] (initial [] ["A"; "B"; "C"]) = Some s ∧
               errChan s = [sample.exitStatus1] ∧ pc s = PSpawn ["C"])
    as (s & Hexec & Hec & Hpc).
  { eexists. split; [vm_compute; reflexivity | split; reflexivity]. }
  assert (∃ s' r,
            exec sampleBody
              [Main; Main; Go 0; Go 0; Go 0; Go 0; Go 1; Go 2; Go 2; Go 2; Go 2; Main] s
            = Some s' ∧ pc s' = PReturn r) as (s' & r & Hexec' & Hr).
  { clear Hec Hpc. vm_compute in Hexec. simplify_eq.
    eexists _, _. split; [vm_compute; reflexivity | reflexivity]. }
  exists s, s', r. split; [exact Hexec|]. split; [exact Hec|]. split; [exact Hexec'|].
  split; [exact Hr|].
  apply (update_first_error_wins sample.find sample.push sample.range sample.propsCollector
           s s' sample.exitStatus1 r).
  - intros r0. rewrite Hpc. discriminate.
  - rewrite Hec. reflexivity.
  - eapply exec_reachable. exact Hexec'.
  - exact Hr.
Defined.

Lemma update_output_only_grows_witness :
  ∃ s : @ustate sample.metric,
    exec sampleBody sample.schedule (initial [("size", "1", ["Z"])] ["A"; "B"; "C"]) = Some s ∧
    [("size", "1", ["Z"])] `prefix_of` ch s.
Proof.
  assert (∃ s, exec sampleBody sample.schedule
                 (initial [("size", "1", ["Z"])] ["A"; "B"; "C"]) = Some s) as (s & Hexec).
  { eexists. vm_compute. reflexivity. }
  exists s. split; [exact Hexec|]. apply exec_reachable in Hexec.
  exact (proj1 (update_output_only_grows sample.find sample.push sample.range
                  sample.propsCollector _ s Hexec)).
Defined.

End UpdateMoreExamples.

(** * More about [Properties] and the constructors *)

Section PropertiesMore.

Import zfs collector.

Variable sys : string → list string → cmdRun.

(** X25.  For the I/O statistics kind the list of requested properties
    plays no part: [Properties] runs the same command and returns the
    same handler and error whatever the list. *)
Theorem Properties_iostat_ignores_props (p : poolImpl) (props props' : list string) :
  pkind p = PoolIostat →
  Properties sys p props = Properties sys p props'.
Proof.
  intros Hk. unfold Properties.
  destruct (decide (pkind p = PoolProps)) as [E|_]; [by rewrite Hk in E|].
  by destruct (decide (pkind p = PoolIostat)).
Qed.

(** For a kind that is not supported [Properties] runs no command:
    whatever the system would answer, it returns the "unknown pool type"
    error, together with a handler of that kind whose map is empty. *)
Lemma Properties_unknown_kind (p : poolImpl) (props : list string) :
  pkind p ≠ PoolProps → pkind p ≠ PoolIostat →
  Properties sys p props
  = Some (newPoolPropertiesImpl (pkind p),
          Some (Errorf ("unknown pool type: " +:+ pkind p +:+ " hhhhhhhh"))).
Proof.
  intros H1 H2. unfold Properties.
  by rewrite !decide_False by done.
Qed.

(** X26.  A collector of a kind that is not supported, put together
    without [newPoolCollector], fails for every pool: on the client of
    package [zfs], [updatePoolMetrics] returns the "unknown pool type"
    error of [Properties] whatever the system would answer, and sends and
    logs nothing. *)
Theorem unknown_kind_fails_every_pool {property metric : Type}
    (find : string → property * option error)
    (push : property → string → list string → list metric * option error)
    (range : gmap string string → list (string * string))
    (k : PoolKind) (ps : list string) (pool : string) :
  k ≠ PoolProps → k ≠ PoolIostat →
  updatePoolMetrics find push range (mkCollector k (zfsClient sys) ps) pool
  = ([], Some (Errorf ("unknown pool type: " +:+ k +:+ " hhhhhhhh"))).
Proof.
  intros H1 H2.
  apply (updatePoolMetrics_client_error find push range _ _ ∅).
  simpl. unfold zfsClient.
  by rewrite (Properties_unknown_kind (newPoolImpl pool k) ps).
Qed.

(** The two constructors that are registered never fail: each one
    returns a collector of its own kind, with the client and the
    properties it was given, and no error. *)
Lemma registered_constructors_succeed (cl : Client) (ps : list string) :
  newPoolPropertiesCollector cl ps = (Some (mkCollector PoolProps cl ps), None) ∧
  newPoolIostatCollector cl ps = (Some (mkCollector PoolIostat cl ps), None).
Proof.
  split.
  - apply newPoolCollector_supported. by left.
  - apply newPoolCollector_supported. by right.
Qed.

End PropertiesMore.

Section PropertiesMoreExamples.

Import zfs collector.

Lemma Properties_iostat_ignores_props_witness :
  Properties sample.sys (newPoolImpl "A" PoolIostat) ["opread"]
  = Properties sample.sys (newPoolImpl "A" PoolIostat) [].
Proof.
  apply (Properties_iostat_ignores_props sample.sys (newPoolImpl "A" PoolIostat)
           ["opread"] []).
  reflexivity.
Defined.

Lemma unknown_kind_fails_every_pool_witness :
  updatePoolMetrics sample.find sample.push sample.range
    (mkCollector "datasets" (zfsClient sample.sys) ["used"]) "A"
  = ([], Some (Errorf "unknown pool type: datasets hhhhhhhh")).
Proof.
  apply (unknown_kind_fails_every_pool sample.sys sample.find sample.push sample.range
           "datasets" ["used"] "A"); discriminate.
Defined.

End PropertiesMoreExamples.
